(** * ecm-rs: Lenstra's elliptic curve factorisation, modelled in Rocq

    Shallow embedding of [src/src/point.rs] (Montgomery points) and
    [src/src/ecm.rs] ([ecm_one_factor], [ecm_with_params], [ecm]).

    Modelling conventions:
    - [rug::Integer] is [Z]; Rust's [%] on [rug::Integer] truncates towards
      zero, so it is [Z.rem]; [/=] on an exact divisor is [Z.quot];
      [gcd] is [Z.gcd]; [pow_mod] is [Z.modulo] of the power (a result in
      [0, n) for a positive modulus).
    - [usize] values ([b1], [b2], [max_curve], [d], primes) are [N]; the
      subtractions [b1 - 1] and [b - two_d] are checked (a panic on
      underflow, the behaviour of the test/debug profile).
    - A panic (index out of range, [unwrap] of [None], [random_below] with a
      bound <= 0, division by zero) is the outcome [Panic]. The [while] loops
      of the driver that need not terminate run on a fuel argument; running
      out of fuel is the outcome [Diverge].
    - [HashMap<Integer, usize>] is [gmap Z nat].
    - The random state [RandState] is abstract (type class [RandGen]); the
      strong primality test [is_probably_prime] is modelled by exact
      primality of the absolute value (GMP decides small inputs exactly, and
      a Miller-Rabin round never rejects a prime).
    - [primal::Primes::all()] is the ascending stream of primes, produced by
      [next_prime] (trial division). *)

From Stdlib Require Import ZArith Znumtheory Lia.
From stdpp Require Import base gmap list.

Open Scope Z_scope.

(* ------------------------------------------------------------------ *)
(** ** Outcomes of a computation: a value, a panic, or non-termination *)

Inductive Outcome (A : Type) : Type :=
| Ret (a : A)
| Panic
| Diverge.
Arguments Ret {A} a.
Arguments Panic {A}.
Arguments Diverge {A}.

#[global] Instance outcome_ret : MRet Outcome := fun A a => Ret a.
#[global] Instance outcome_bind : MBind Outcome :=
  fun A B f m => match m with Ret a => f a | Panic => Panic | Diverge => Diverge end.

(** Rust's [Result<T, E>]. *)
Inductive result (A E : Type) : Type :=
| Ok (a : A)
| Err (e : E).
Arguments Ok {A E} a.
Arguments Err {A E} e.

(** [ecm::Error]. *)
Inductive Error : Type :=
| BoundsNotEven
| BoundsTooSmall
| ECMFailed
| NumberIsPrime.

(** [rug::integer::IsPrime]. *)
Inductive IsPrime : Type := No | Probably | Yes.

Definition IsPrime_eqb (a b : IsPrime) : bool :=
  match a, b with No, No | Probably, Probably | Yes, Yes => true | _, _ => false end.

(** [Result::unwrap_or]. *)
Definition unwrap_or {A E} (r : result A E) (dflt : A) : A :=
  match r with Ok a => a | Err _ => dflt end.

(* ------------------------------------------------------------------ *)
(** ** Integer helpers of [rug] *)

(** [Integer::is_divisible]: "divisor can be zero", and only zero is
    divisible by zero. *)
Definition is_divisible (n d : Z) : bool :=
  if Z.eqb d 0 then Z.eqb n 0 else Z.eqb (Z.rem n d) 0.

(** [n /= d]: truncating division, a panic on a zero divisor. *)
Definition div_checked (n d : Z) : Outcome Z :=
  if Z.eqb d 0 then Panic else Ret (Z.quot n d).

(** Extended Euclid: the Bezout coefficient of [a] modulo [m]. *)
Fixpoint egcd_coeff (fuel : nat) (r0 r1 s0 s1 : Z) : Z :=
  match fuel with
  | O => s0
  | S f =>
      if Z.eqb r1 0 then s0
      else let q := Z.div r0 r1 in egcd_coeff f r1 (r0 - q * r1) s1 (s0 - q * s1)
  end.

(** [Integer::invert(self, modulo)]: [Ok] of the inverse in [0, |m|) when
    [gcd(a, m) = 1], an error otherwise. *)
Definition invert (a m : Z) : option Z :=
  if Z.eqb (Z.gcd a m) 1
  then Some (Z.modulo
               (egcd_coeff (Z.to_nat (2 * Z.log2 (Z.abs m) + 4))
                  (Z.modulo a (Z.abs m)) (Z.abs m) 1 0) (Z.abs m))
  else None.

(** [Integer::pow_mod(exp, modulo)] for a non-negative exponent. *)
Definition pow_mod (a e m : Z) : Z := Z.modulo (a ^ e) m.

(* ------------------------------------------------------------------ *)
(** ** Points in Montgomery form ([src/src/point.rs]) *)

Record Point : Type := mkPoint {
  x_cord : Z;
  z_cord : Z;
  a_24 : Z;
  modulus : Z
}.

(** [#[derive(Default)]]: all fields are [Integer::default() = 0]. *)
Definition point_default : Point := mkPoint 0 0 0 0.

(** [Point::add(&self, q, diff)]. *)
Definition add (p q diff : Point) : Point :=
  let u := (x_cord p - z_cord p) * (x_cord q + z_cord q) in
  let v := (x_cord p + z_cord p) * (x_cord q - z_cord q) in
  let add := u + v in
  let subt := u - v in
  let x := Z.rem (z_cord diff * add * add) (modulus p) in
  let z := Z.rem (x_cord diff * subt * subt) (modulus p) in
  mkPoint x z (a_24 p) (modulus p).

(** [Point::double(&self)]. *)
Definition double (p : Point) : Point :=
  let u := (x_cord p + z_cord p) ^ 2 in
  let v := (x_cord p - z_cord p) ^ 2 in
  let diff := u - v in
  let x := Z.rem (u * v) (modulus p) in
  let z := Z.rem ((v + a_24 p * diff) * diff) (modulus p) in
  mkPoint x z (a_24 p) (modulus p).

(** Binary digits of a positive number, most significant first. *)
Fixpoint pos_bits (p : positive) : list bool :=
  match p with
  | xH => [true]
  | xO q => pos_bits q ++ [false]
  | xI q => pos_bits q ++ [true]
  end.

(** [format!("{:b}", k)[1..]]: the digits after the leading one ("0" for
    zero, so nothing is left). *)
Definition ladder_bits (k : N) : list bool :=
  match k with N0 => [] | Npos p => tail (pos_bits p) end.

(** One step of the ladder on the pair [(q, r)]. *)
Definition ladder_step (p : Point) (qr : Point * Point) (bit : bool) : Point * Point :=
  let '(q, r) := qr in
  if bit then (add r q p, double r) else (double q, add q r p).

(** [Point::mont_ladder(&self, k)]. *)
Definition mont_ladder (p : Point) (k : N) : Point :=
  fst (fold_left (ladder_step p) (ladder_bits k) (p, double p)).

(** [impl PartialEq for Point]: [false] when [a_24] or [modulus] differ,
    otherwise [z^-1 * x % modulus] of both points compared, each inverse
    taken modulo [self.modulus] and unwrapped (a panic when it does not
    exist), the one of [self] first. *)
Definition point_eq (p o : Point) : Outcome bool :=
  if negb (Z.eqb (a_24 p) (a_24 o)) || negb (Z.eqb (modulus p) (modulus o)) then Ret false
  else
    match invert (z_cord p) (modulus p) with
    | None => Panic
    | Some ip =>
        match invert (z_cord o) (modulus p) with
        | None => Panic
        | Some io =>
            Ret (Z.eqb (Z.rem (ip * x_cord p) (modulus p)) (Z.rem (io * x_cord o) (modulus p)))
        end
    end.

(* ------------------------------------------------------------------ *)
(** ** Primes: trial division and the ascending stream [Primes::all()] *)

(** No divisor of [n] in [d, sqrt n]; [false] when the fuel runs out. *)
Fixpoint no_divisor_from (fuel : nat) (n d : N) : bool :=
  match fuel with
  | O => false
  | S f =>
      if N.ltb n (d * d) then true
      else if N.eqb (N.modulo n d) 0 then false
      else no_divisor_from f n (d + 1)%N
  end.

Definition prime_b (n : N) : bool :=
  N.leb 2 n && no_divisor_from (S (N.to_nat (N.sqrt n))) n 2%N.

(** Smallest prime in [c, 2c + 2] (Bertrand's postulate puts one there);
    [None] is never returned for the inputs the program meets. *)
Fixpoint search_prime (fuel : nat) (c : N) : option N :=
  match fuel with
  | O => None
  | S f => if prime_b c then Some c else search_prime f (c + 1)%N
  end.

Definition next_prime (c : N) : option N :=
  let c := N.max c 2%N in search_prime (S (S (N.to_nat c))) c.

(** [Primes::all().take(k)]. *)
Fixpoint primes_from (k : nat) (c : N) : list N :=
  match k with
  | O => []
  | S k' =>
      match next_prime c with
      | Some p => p :: primes_from k' (p + 1)%N
      | None => []
      end
  end.

Definition primes_take (k : nat) : list N := primes_from k 2%N.

(** [Primes::all().take_while(|&p| p <= b)]. *)
Fixpoint primes_upto_from (fuel : nat) (c b : N) : list N :=
  match fuel with
  | O => []
  | S f =>
      match next_prime c with
      | Some p => if N.leb p b then p :: primes_upto_from f (p + 1)%N b else []
      | None => []
      end
  end.

Definition primes_upto (b : N) : list N := primes_upto_from (S (N.to_nat b)) 2%N b.

(** [rug::Integer::is_probably_prime(reps)]: exact primality of [|n|]. *)
Definition is_probably_prime (n : Z) (reps : nat) : IsPrime :=
  if prime_b (Z.abs_N n) then Yes else No.

(** [usize::ilog(self, base)]: the largest [e] with [p ^ e <= b]. *)
Fixpoint ilog_aux (fuel : nat) (b p : N) : N :=
  match fuel with
  | O => 0%N
  | S f => if N.ltb b p then 0%N else (1 + ilog_aux f (b / p) p)%N
  end.

Definition ilog (b p : N) : N := ilog_aux (S (N.to_nat (N.log2 b))) b p.

(* ------------------------------------------------------------------ *)
(** ** The random state [RandState] *)

(** [RandState::new()] followed by [seed(&seed)], and
    [Integer::random_below(bound, rgen)] for a positive bound. *)
Class RandGen (RS : Type) := {
  rand_seed : Z -> RS;
  random_below : Z -> RS -> Z * RS
}.

(* ------------------------------------------------------------------ *)
(** ** Vectors with bounds checks *)

(** [v[i]] as a read: a panic out of range. *)
Definition vec_get {A} (l : list A) (i : nat) : Outcome A :=
  match l !! i with Some a => Ret a | None => Panic end.

(** [v[i] = a]: a panic out of range. *)
Definition vec_set {A} (l : list A) (i : nat) (a : A) : Outcome (list A) :=
  if decide (i < length l)%nat then Ret (<[i:=a]> l) else Panic.

(** A [for] loop in the [Outcome] monad. *)
Fixpoint foldM {A B} (f : A -> B -> Outcome A) (l : list B) (a : A) : Outcome A :=
  match l with
  | [] => Ret a
  | b :: l' => a' ← f a b; foldM f l' a'
  end.

(* ------------------------------------------------------------------ *)
(** ** One curve of [ecm_one_factor] ([src/src/ecm.rs], lines 87-163) *)

(** Result of Suyama's parametrisation: an early factor (the inversion of
    [4 u^3 v] failed) or the initial point of the curve. *)
Inductive SuyamaResult : Type :=
| SuyamaFactor (g : Z)
| SuyamaCurve (q : Point).

(** Lines 96-112, after [sigma] has been drawn. *)
Definition suyama (n sigma : Z) : Outcome SuyamaResult :=
  let u := Z.rem (sigma * sigma - 5) n in
  let v := Z.rem (4 * sigma) n in
  let diff := v - u in
  let u_3 := Z.rem (u ^ 3) n in
  match invert (4 * u_3 * v) n with
  | None => Ret (SuyamaFactor (Z.gcd (4 * u_3 * v) n))
  | Some c_inv =>
      let c := Z.rem (pow_mod diff 3 n * (4 * u + v) * c_inv - 2) n in
      match invert 4 n with
      | None => Panic (* [Integer::from(4).invert(n).unwrap()] *)
      | Some inv4 =>
          let a24 := Z.rem ((c + 2) * inv4) n in
          Ret (SuyamaCurve (mkPoint u_3 (Z.rem (v ^ 3) n) a24 n))
      end
  end.

(** Lines 127-135: [s[1] = 2Q], [s[2] = 4Q], [s[i] = s[i-1] + s[1]] and
    [beta[i] = s[i].x * s[i].z % n]. *)
Definition stage2_table (n : Z) (q : Point) (d : nat) (s : list Point) (beta : list Z)
  : Outcome (list Point * list Z) :=
  s ← vec_set s 1 (double q);
  s1 ← vec_get s 1;
  s ← vec_set s 2 (double s1);
  s1 ← vec_get s 1;
  beta ← vec_set beta 1 (Z.rem (x_cord s1 * z_cord s1) n);
  s2 ← vec_get s 2;
  beta ← vec_set beta 2 (Z.rem (x_cord s2 * z_cord s2) n);
  foldM (fun '(s, beta) (i : nat) =>
           si1 ← vec_get s (i - 1);
           s1 ← vec_get s 1;
           si2 ← vec_get s (i - 2);
           s ← vec_set s i (add si1 s1 si2);
           si ← vec_get s i;
           beta ← vec_set beta i (Z.rem (x_cord si * z_cord si) n);
           Ret (s, beta))
        (seq 3 (d - 2)) (s, beta).

(** [primes.by_ref().take_while(|&q| q <= bound)] on the prime cursor [c]
    (the next item of the stream is [next_prime c]): the primes it yields,
    and the cursor afterwards. [take_while] pulls the first prime above
    [bound] out of the stream to test it, and drops it. *)
Fixpoint take_while_le (fuel : nat) (c bound : N) : list N * N :=
  match fuel with
  | O => ([], c)
  | S f =>
      match next_prime c with
      | None => ([], c)
      | Some q =>
          if N.leb q bound
          then let '(qs, c') := take_while_le f (q + 1)%N bound in (q :: qs, c')
          else ([], (q + 1)%N)
      end
  end.

(** [for rr in (b..b2).step_by(two_d)] driving the cursor
    [Primes::all().skip_while(|&q| q < b)] (lines 142-145): each window
    [rr] with the primes [q] its inner loop visits, in order. *)
Fixpoint windows (fuel : nat) (rr b2 two_d c : N) : list (N * list N) :=
  match fuel with
  | O => []
  | S f =>
      if N.ltb rr b2 then
        let '(qs, c') := take_while_le (S (N.to_nat (rr + two_d + 1 - c))) c (rr + two_d) in
        (rr, qs) :: windows f (rr + two_d)%N b2 two_d c'
      else []
  end.

Definition stage2_schedule (b b2 two_d : N) : list (N * list N) :=
  windows (S (N.to_nat b2)) b b2 two_d b.

(** Lines 137-157: the accumulated product over the schedule, then
    [gcd(g, n)]. *)
Definition stage2 (n : Z) (q : Point) (b1 b2 : N) (d : nat) (s : list Point) (beta : list Z)
  : Outcome Z :=
  let two_d := (2 * N.of_nat d)%N in
  b ← (if N.ltb b1 1 then Panic else Ret (b1 - 1)%N);
  bt ← (if N.ltb b two_d then Panic else Ret (b - two_d)%N);
  let t := mont_ladder q bt in
  let r := mont_ladder q b in
  '(g, _, _) ←
    foldM (fun '(g, t, r) '(rr, qs) =>
             let alpha := Z.rem (x_cord r * z_cord r) n in
             g ← foldM (fun g qq =>
                          let delta := N.to_nat ((qq - rr) / 2) in
                          sd ← vec_get s d;
                          beta_delta ← vec_get beta delta;
                          let f := (x_cord r - x_cord sd) * (z_cord r + z_cord sd)
                                   - alpha + beta_delta in
                          Ret (Z.rem (g * f) n))
                       qs g;
             (* [swap(&mut t, &mut r); r = r.add(&s[d], &t)] *)
             sd ← vec_get s d;
             Ret (g, r, add t sd r))
          (stage2_schedule b b2 two_d) (1, t, r);
  Ret (Z.gcd g n).

Section EcmOneFactor.
Context {RS : Type} `{!RandGen RS}.

(** [(n - 1).random_below(rgen)]: [rug] panics on a bound <= 0. *)
Definition random_below_checked (bound : Z) (rgen : RS) : Outcome (Z * RS) :=
  if Z.leb bound 0 then Panic else Ret (random_below bound rgen).

(** The body of [while curve <= max_curve] (lines 88-162): [Some g] is a
    [return Ok(g)], [None] goes on with the next curve. *)
Definition one_curve (n : Z) (b1 b2 : N) (d : nat) (k : N)
    (s : list Point) (beta : list Z) (rgen : RS)
  : Outcome (option Z * list Point * list Z * RS) :=
  '(sigma, rgen) ← random_below_checked (n - 1) rgen;
  sr ← suyama n sigma;
  match sr with
  | SuyamaFactor g => Ret (Some g, s, beta, rgen)
  | SuyamaCurve q0 =>
      let q := mont_ladder q0 k in
      let g := Z.gcd (z_cord q) n in
      if negb (Z.eqb g n) && negb (Z.eqb g 1) then Ret (Some g, s, beta, rgen)
      else if Z.eqb g n then Ret (None, s, beta, rgen)
      else
        '(s, beta) ← stage2_table n q d s beta;
        g ← stage2 n q b1 b2 d s beta;
        if negb (Z.eqb g n) && negb (Z.eqb g 1) then Ret (Some g, s, beta, rgen)
        else Ret (None, s, beta, rgen)
  end.

(** [while curve <= max_curve { curve += 1; ... }] then
    [Err(Error::ECMFailed)]; the fuel [max_curve + 2] is never exhausted. *)
Fixpoint curve_loop (fuel : nat) (n : Z) (b1 b2 max_curve : N) (d : nat) (k : N)
    (curve : N) (s : list Point) (beta : list Z) (rgen : RS)
  : Outcome (result Z Error * RS) :=
  match fuel with
  | O => Ret (Err ECMFailed, rgen)
  | S f =>
      if N.leb curve max_curve then
        let curve := (curve + 1)%N in
        '(res, s, beta, rgen) ← one_curve n b1 b2 d k s beta rgen;
        match res with
        | Some g => Ret (Ok g, rgen)
        | None => curve_loop f n b1 b2 max_curve d k curve s beta rgen
        end
      else Ret (Err ECMFailed, rgen)
  end.

(** [ecm_one_factor(n, b1, b2, max_curve, rgen)]; the random state is
    threaded through and returned. *)
Definition ecm_one_factor (n : Z) (b1 b2 max_curve : N) (rgen : RS)
  : Outcome (result Z Error * RS) :=
  if negb (N.eqb (N.modulo b1 2) 0) || negb (N.eqb (N.modulo b2 2) 0)
  then Ret (Err BoundsNotEven, rgen)
  else if negb (IsPrime_eqb (is_probably_prime n 1000) No)
  then Ret (Err NumberIsPrime, rgen)
  else
    let d := N.to_nat (N.sqrt b2) in (* [(b2 as f64).sqrt() as usize], exact below 2^52 *)
    let beta := repeat 0 (S d) in
    let s := repeat point_default (S d) in
    let k := fold_left (fun k p => (k * p ^ ilog b1 p)%N) (primes_upto b1) 1%N in
    curve_loop (S (S (N.to_nat max_curve))) n b1 b2 max_curve d k 0%N s beta rgen.

End EcmOneFactor.

(* ------------------------------------------------------------------ *)
(** ** The driver ([src/src/ecm.rs], lines 169-267) *)

(** [*factors.entry(p).or_insert(0) += 1]. *)
Definition incr (p : Z) (factors : gmap Z nat) : gmap Z nat :=
  <[p := S (from_option id 0%nat (factors !! p))]> factors.

(** [while n.is_divisible(&p) { n /= &p; *factors.entry(p)... += 1; }] *)
Fixpoint divide_out (fuel : nat) (n p : Z) (factors : gmap Z nat)
  : Outcome (Z * gmap Z nat) :=
  if is_divisible n p then
    match fuel with
    | O => Diverge
    | S f => n' ← div_checked n p; divide_out f n' p (incr p factors)
    end
  else Ret (n, factors).

(** The trial division by [primes] (lines 234-243). *)
Definition trial_division (primes : list N) (fuel : nat) (n : Z) (factors : gmap Z nat)
  : Outcome (Z * gmap Z nat) :=
  foldM (fun '(n, factors) p =>
           if is_divisible n (Z.of_N p) then divide_out fuel n (Z.of_N p) factors
           else Ret (n, factors))
        primes (n, factors).

(** [Primes::all().take(100_000)]. *)
Definition small_primes : list N := primes_take 100000.

Section Driver.
Context {RS : Type} `{!RandGen RS}.

(** [while n != 1 { let factor = ecm_one_factor(..).unwrap_or(n.clone()); ... }]
    (lines 248-264). *)
Fixpoint ecm_loop (fuel : nat) (b1 b2 max_curve : N) (n : Z) (factors : gmap Z nat)
    (rand_state : RS) : Outcome (gmap Z nat) :=
  if Z.eqb n 1 then Ret factors
  else
    match fuel with
    | O => Diverge
    | S f =>
        '(res, rand_state) ← ecm_one_factor n b1 b2 max_curve rand_state;
        let factor := unwrap_or res n in
        '(n, factors) ← divide_out fuel n factor factors;
        ecm_loop f b1 b2 max_curve n factors rand_state
    end.

(** [ecm_with_params(n, b1, b2, max_curve, seed)]; [fuel] bounds the
    [while] loops. *)
Definition ecm_with_params (n : Z) (b1 b2 max_curve seed : N) (fuel : nat)
  : Outcome (result (gmap Z nat) Error) :=
  '(n, factors) ← trial_division small_primes fuel n ∅;
  let rand_state := rand_seed (Z.of_N seed) in
  factors ← ecm_loop fuel b1 b2 max_curve n factors rand_state;
  Ret (Ok factors).

End Driver.

(** [optimal_b1(digits)]. *)
Definition optimal_b1 (digits : nat) : N :=
  if (1 <=? digits)%nat && (digits <=? 15)%nat then 2000
  else if (16 <=? digits)%nat && (digits <=? 20)%nat then 11000
  else if (21 <=? digits)%nat && (digits <=? 25)%nat then 50000
  else if (26 <=? digits)%nat && (digits <=? 30)%nat then 250000
  else if (31 <=? digits)%nat && (digits <=? 35)%nat then 1000000
  else if (36 <=? digits)%nat && (digits <=? 40)%nat then 3000000
  else if (41 <=? digits)%nat && (digits <=? 45)%nat then 11000000
  else if (46 <=? digits)%nat && (digits <=? 50)%nat then 44000000
  else if (51 <=? digits)%nat && (digits <=? 55)%nat then 110000000
  else if (56 <=? digits)%nat && (digits <=? 60)%nat then 260000000
  else if (61 <=? digits)%nat && (digits <=? 65)%nat then 850000000
  else 2900000000.

(** Number of decimal digits of [a] ("0" has one). *)
Fixpoint ndigits (fuel : nat) (a : N) : nat :=
  match fuel with
  | O => 1%nat
  | S f => if N.ltb a 10 then 1%nat else S (ndigits f (a / 10))
  end.

(** [n.to_string().len()]: the digits of [|n|], plus one for a minus sign. *)
Definition dec_len (n : Z) : nat :=
  ((if Z.ltb n 0 then 1 else 0) + ndigits (S (N.to_nat (N.log2 (Z.abs_N n)))) (Z.abs_N n))%nat.

(** [ecm(n)]: [B1] from the decimal length, [B2 = 100000], 200 curves,
    seed 1234. *)
Definition ecm {RS : Type} `{!RandGen RS} (n : Z) (fuel : nat)
  : Outcome (result (gmap Z nat) Error) :=
  ecm_with_params n (optimal_b1 (dec_len n)) 100000 200 1234 fuel.

(** The product over the keys [p] of [p ^ multiplicity]. *)
Definition factors_product (factors : gmap Z nat) : Z :=
  map_fold (fun p e acc => p ^ Z.of_nat e * acc) 1 factors.

(* ------------------------------------------------------------------ *)
(** ** Concrete random states *)

(** A linear congruential generator: [random_below b] returns the state
    reduced modulo [b] and steps the state. *)
Record Lcg : Type := mkLcg { lcg_state : Z }.

Definition lcg_next (s : Z) : Z := (s * 1103515245 + 12345) mod 2 ^ 31.

#[global] Instance lcg_rand : RandGen Lcg := {
  rand_seed s := mkLcg s;
  random_below b g := (lcg_state g mod b, mkLcg (lcg_next (lcg_state g)))
}.

(** Any random state paired with the number of values drawn from it. *)
#[global] Instance counting_rand {RS : Type} `{!RandGen RS} : RandGen (RS * nat) := {
  rand_seed s := (rand_seed s, 0%nat);
  random_below b sk := let '(x, s') := random_below b (fst sk) in (x, (s', S (snd sk)))
}.

(** The square of one plus the product of the trial-division primes:
    no trial-division prime divides it, and it is composite. *)
Definition big_square : Z :=
  (1 + Z.of_N (fold_right N.mul 1%N small_primes)) ^ 2.

(** Where a key of the returned mapping comes from: a trial-division prime,
    a factor [ecm_one_factor] returned on some residual, or a residual on
    which [ecm_one_factor] failed (recorded as-is by [unwrap_or]). *)
Definition factor_origin {RS : Type} `{!RandGen RS} (b1 b2 max_curve : N) (p : Z) : Prop :=
  (exists q, In q small_primes /\ p = Z.of_N q /\ Z.prime p) \/
  (exists r rgen rgen', ecm_one_factor r b1 b2 max_curve rgen = Ret (Ok p, rgen')) \/
  (exists rgen rgen' e, ecm_one_factor p b1 b2 max_curve rgen = Ret (Err e, rgen')).

(** Coordinates reduced by the truncated remainder: in (-N, N). *)
Definition reduced (p : Point) : Prop :=
  - modulus p < x_cord p < modulus p /\ - modulus p < z_cord p < modulus p.

(** Coordinates in the canonical range [0, N). *)
Definition canonical (p : Point) : Prop :=
  0 <= x_cord p < modulus p /\ 0 <= z_cord p < modulus p.

(** A point with both coordinates multiplied by [l]: the same projective
    point. *)
Definition scale (l : Z) (p : Point) : Point :=
  mkPoint (l * x_cord p) (l * z_cord p) (a_24 p) (modulus p).

(** Every key of [m] is at least [2] and divides [n0], with a multiplicity
    of at least [1]. *)
Definition keys_ok (n0 : Z) (m : gmap Z nat) : Prop :=
  forall k e, m !! k = Some e -> 2 <= k /\ (k | n0) /\ (1 <= e)%nat.

(* ================================================================== *)
(** * Lemmas *)

(* ------------------------------------------------------------------ *)
(** ** The [Outcome] monad and [foldM] *)

Lemma bind_Ret_inv {A B} (m : Outcome A) (f : A -> Outcome B) (b : B) :
  (m ≫= f) = Ret b -> exists a, m = Ret a /\ f a = Ret b.
Proof. destruct m as [a| |]; cbn; [eauto | discriminate | discriminate]. Qed.

Lemma bind_Ret {A B} (a : A) (f : A -> Outcome B) : (Ret a ≫= f) = f a.
Proof. reflexivity. Qed.

(** An invariant of every step of a [foldM] holds of its result. *)
Lemma foldM_inv {A B} (P : A -> Prop) (f : A -> B -> Outcome A) (l : list B) (a r : A) :
  P a ->
  (forall a' b a'', In b l -> P a' -> f a' b = Ret a'' -> P a'') ->
  foldM f l a = Ret r -> P r.
Proof.
  revert a. induction l as [|b l IH]; intros a Ha Hstep Hrun; cbn in Hrun.
  - congruence.
  - apply bind_Ret_inv in Hrun as (a' & Hf & Hrest).
    eapply IH; [eapply Hstep; [left; reflexivity | exact Ha | exact Hf] | | exact Hrest].
    intros; eapply Hstep; [right|..]; eauto.
Qed.

(** A [foldM] whose every step returns its accumulator unchanged. *)
Lemma foldM_id {A B} (f : A -> B -> Outcome A) (l : list B) (a : A) :
  (forall b, In b l -> f a b = Ret a) -> foldM f l a = Ret a.
Proof.
  induction l as [|b l IH]; intros Hf; cbn; [reflexivity|].
  rewrite (Hf b (or_introl eq_refl)). cbn. apply IH. intros; apply Hf; right; assumption.
Qed.

(* ------------------------------------------------------------------ *)
(** ** The product of a factor mapping *)

Lemma factors_product_empty : factors_product ∅ = 1.
Proof. unfold factors_product. apply map_fold_empty. Qed.

Lemma factors_product_incr (p : Z) (m : gmap Z nat) :
  factors_product (incr p m) = p * factors_product m.
Proof.
  unfold incr, factors_product.
  assert (Hc : forall (j1 j2 : Z) (z1 z2 : nat) (y : Z),
             j1 <> j2 -> True -> True ->
             j1 ^ Z.of_nat z1 * (j2 ^ Z.of_nat z2 * y)
             = j2 ^ Z.of_nat z2 * (j1 ^ Z.of_nat z1 * y)) by (intros; ring).
  destruct (m !! p) as [e|] eqn:He; cbn [from_option id].
  - rewrite <- insert_delete_eq.
    rewrite (map_fold_delete_L _ _ p e m) by (auto || (intros; apply Hc; auto)).
    rewrite map_fold_insert_L by (apply lookup_delete_eq || (intros; apply Hc; auto)).
    rewrite Nat2Z.inj_succ, Z.pow_succ_r by lia. ring.
  - rewrite map_fold_insert_L by (auto || (intros; apply Hc; auto)).
    change (Z.of_nat 1) with 1. rewrite Z.pow_1_r. reflexivity.
Qed.

(** [divide_out] moves factors of [n] into the mapping. *)
Lemma divide_out_product fuel n p m n' m' :
  divide_out fuel n p m = Ret (n', m') ->
  n * factors_product m = n' * factors_product m'.
Proof.
  revert n m. induction fuel as [|f IH]; intros n m H; cbn in H;
    destruct (is_divisible n p) eqn:Hd; try congruence.
  unfold div_checked in H. destruct (Z.eqb_spec p 0) as [Hp|Hp]; [discriminate|].
  cbn in H. apply IH in H. rewrite <- H, factors_product_incr.
  unfold is_divisible in Hd. apply Z.eqb_neq in Hp. rewrite Hp in Hd.
  apply Z.eqb_eq in Hd. apply Z.eqb_neq in Hp.
  pose proof (Z.quot_rem' n p) as Hq. rewrite Hd in Hq. rewrite Hq at 1. ring.
Qed.

Lemma trial_division_product primes fuel n m n' m' :
  trial_division primes fuel n m = Ret (n', m') ->
  n * factors_product m = n' * factors_product m'.
Proof.
  unfold trial_division. intros H.
  refine (foldM_inv (fun '(n2, m2) => n * factors_product m = n2 * factors_product m2)
            _ _ _ _ _ _ H); [reflexivity|].
  intros [n1 m1] p [n2 m2] _ Hinv Hstep.
  destruct (is_divisible n1 (Z.of_N p)).
  - apply divide_out_product in Hstep. congruence.
  - congruence.
Qed.

Section DriverLemmas.
Context {RS : Type} `{!RandGen RS}.

Lemma ecm_loop_S f b1 b2 mc n m rs :
  ecm_loop (S f) b1 b2 mc n m rs =
  if Z.eqb n 1 then Ret m
  else '(res, rs) ← ecm_one_factor n b1 b2 mc rs;
       '(n', m') ← divide_out (S f) n (unwrap_or res n) m;
       ecm_loop f b1 b2 mc n' m' rs.
Proof. reflexivity. Qed.

Lemma ecm_loop_product fuel b1 b2 mc n m rs m' :
  ecm_loop fuel b1 b2 mc n m rs = Ret m' -> n * factors_product m = factors_product m'.
Proof.
  revert n m rs. induction fuel as [|f IH]; intros n m rs H;
    [cbn in H | rewrite ecm_loop_S in H];
    destruct (Z.eqb_spec n 1) as [->|Hn]; try (injection H as <-; ring); try discriminate.
  apply bind_Ret_inv in H as ([res rs'] & _ & H).
  apply bind_Ret_inv in H as ([n2 m2] & Hd & H).
  apply divide_out_product in Hd. apply IH in H. congruence.
Qed.

(** [ecm_with_params] returns [Ok] or does not return. *)
Lemma ecm_with_params_shape n b1 b2 mc seed fuel :
  ecm_with_params n b1 b2 mc seed fuel = Panic \/
  ecm_with_params n b1 b2 mc seed fuel = Diverge \/
  exists m, ecm_with_params n b1 b2 mc seed fuel = Ret (Ok m).
Proof.
  unfold ecm_with_params.
  destruct (trial_division small_primes fuel n ∅) as [[n' m]| |]; cbn; auto.
  destruct (ecm_loop fuel b1 b2 mc n' m (rand_seed (Z.of_N seed))); cbn; eauto.
Qed.

Lemma ecm_with_params_product n b1 b2 mc seed fuel m :
  ecm_with_params n b1 b2 mc seed fuel = Ret (Ok m) -> factors_product m = n.
Proof.
  unfold ecm_with_params. intros H.
  apply bind_Ret_inv in H as ([n' m1] & Ht & H).
  apply bind_Ret_inv in H as (m2 & Hl & H). injection H as <-.
  apply trial_division_product in Ht. apply ecm_loop_product in Hl.
  rewrite factors_product_empty in Ht. lia.
Qed.

End DriverLemmas.

(* ------------------------------------------------------------------ *)
(** ** Trial-division primality *)

Lemma no_divisor_from_sound fuel n d :
  no_divisor_from fuel n d = true ->
  forall e, (d <= e)%N -> (e * e <= n)%N -> N.modulo n e <> 0%N.
Proof.
  revert d. induction fuel as [|f IH]; intros d H e Hde Hen; cbn in H; [discriminate|].
  destruct (N.ltb_spec n (d * d)); [nia|].
  destruct (N.eqb_spec (N.modulo n d) 0); [discriminate|].
  destruct (N.eq_dec e d) as [->|Hne]; [assumption|].
  apply (IH (d + 1)%N H); lia.
Qed.

Lemma no_divisor_from_complete fuel n d :
  (2 <= d)%N -> (d <= N.sqrt n + 1)%N -> (N.sqrt n + 1 < d + N.of_nat fuel)%N ->
  (forall e, (d <= e)%N -> (e * e <= n)%N -> N.modulo n e <> 0%N) ->
  no_divisor_from fuel n d = true.
Proof.
  revert d. induction fuel as [|f IH]; intros d H2 Hd Hf Hnd; [lia|]. cbn.
  destruct (N.ltb_spec n (d * d)); [reflexivity|].
  assert (Hsq : (d <= N.sqrt n)%N).
  { rewrite <- (N.sqrt_square d). apply N.sqrt_le_mono. lia. }
  destruct (N.eqb_spec (N.modulo n d) 0) as [E|E].
  - exfalso. apply (Hnd d); lia.
  - apply IH; [lia | lia | lia |]. intros e He. apply Hnd. lia.
Qed.

(** [prime_b n]: [n >= 2] and no [e >= 2] with [e * e <= n] divides [n]. *)
Lemma prime_b_spec n :
  prime_b n = true <->
  (2 <= n)%N /\ (forall e, (2 <= e)%N -> (e * e <= n)%N -> N.modulo n e <> 0%N).
Proof.
  unfold prime_b. rewrite andb_true_iff, N.leb_le. split.
  - intros [H2 H]. split; [assumption|]. exact (no_divisor_from_sound _ _ _ H).
  - intros [H2 H]. split; [assumption|].
    assert (1 <= N.sqrt n)%N.
    { rewrite <- (N.sqrt_square 1). apply N.sqrt_le_mono. lia. }
    apply no_divisor_from_complete; [lia | lia | | exact H]. lia.
Qed.

(** A number that passes the check is prime. *)
Lemma prime_b_prime n : prime_b n = true -> Z.prime (Z.of_N n).
Proof.
  intros [H2 H]%prime_b_spec. split; [lia|].
  intros a Ha [c Hc].
  assert (Hc0 : 1 < c) by nia.
  assert (Hcn : c < Z.of_N n) by nia.
  (* one of [a], [c] is at most the square root *)
  destruct (Z.le_gt_cases (a * a) (Z.of_N n)) as [Hle|Hgt].
  - apply (H (Z.to_N a)); [lia | lia |].
    apply N2Z.inj. rewrite N2Z.inj_mod, Z2N.id, Hc by lia. cbn.
    rewrite Z.mod_mul; lia.
  - apply (H (Z.to_N c)); [lia | nia |].
    apply N2Z.inj. rewrite N2Z.inj_mod, Z2N.id, Hc by lia. cbn.
    rewrite Z.mul_comm, Z.mod_mul; lia.
Qed.

(** A prime passes the check. *)
Lemma prime_prime_b n : Z.prime (Z.of_N n) -> prime_b n = true.
Proof.
  intros [H1 H]. apply prime_b_spec. split; [lia|].
  intros e He2 Hee Hmod. apply (H (Z.of_N e)); [nia|].
  apply Z.mod_divide; [lia|]. rewrite <- N2Z.inj_mod. rewrite Hmod. reflexivity.
Qed.

(** A square [a * a] with [a >= 2] fails the check. *)
Lemma prime_b_square a : (2 <= a)%N -> prime_b (a * a) = false.
Proof.
  intros Ha. destruct (prime_b (a * a)) eqn:E; [|reflexivity].
  apply prime_b_spec in E as [_ H]. exfalso. apply (H a); [lia | lia |].
  apply N.Div0.mod_mul.
Qed.

Lemma search_prime_prime_b fuel c p : search_prime fuel c = Some p -> prime_b p = true.
Proof.
  revert c. induction fuel as [|f IH]; intros c H; cbn in H; [discriminate|].
  destruct (prime_b c) eqn:E; [congruence | eauto].
Qed.

Lemma next_prime_prime_b c p : next_prime c = Some p -> prime_b p = true.
Proof. apply search_prime_prime_b. Qed.

Lemma primes_from_prime_b k c : Forall (fun p => prime_b p = true) (primes_from k c).
Proof.
  revert c. induction k as [|k IH]; intros c; cbn [primes_from]; [constructor|].
  destruct (next_prime c) as [p|] eqn:E; constructor; eauto using next_prime_prime_b.
Qed.

Lemma small_primes_prime_b : Forall (fun p => prime_b p = true) small_primes.
Proof. apply primes_from_prime_b. Qed.

Lemma small_primes_ge_2 : Forall (fun p => (2 <= p)%N) small_primes.
Proof.
  eapply Forall_impl; [exact small_primes_prime_b|].
  intros p Hp%prime_b_spec. apply Hp.
Qed.

Lemma small_primes_cons : small_primes = 2%N :: primes_from 99999 3.
Proof.
  unfold small_primes, primes_take.
  change (primes_from 100000 2) with (primes_from (S 99999) 2).
  cbn [primes_from]. replace (next_prime 2) with (Some 2%N) by reflexivity.
  reflexivity.
Qed.

(* ------------------------------------------------------------------ *)
(** ** Steps of the driver *)

Lemma divide_out_stop fuel n p m :
  is_divisible n p = false -> divide_out fuel n p m = Ret (n, m).
Proof. intros H. destruct fuel; cbn [divide_out]; rewrite H; reflexivity. Qed.

Lemma divide_out_step f n p m :
  is_divisible n p = true -> p <> 0 ->
  divide_out (S f) n p m = divide_out f (Z.quot n p) p (incr p m).
Proof.
  intros H Hp. cbn [divide_out]. rewrite H. unfold div_checked.
  destruct (Z.eqb_spec p 0); [contradiction | reflexivity].
Qed.

Lemma incr_empty p : incr p ∅ = {[p := 1%nat]}.
Proof. unfold incr. rewrite lookup_empty. apply insert_empty. Qed.

Lemma is_divisible_false n p : p <> 0 -> ~ (p | n) -> is_divisible n p = false.
Proof.
  intros Hp Hd. unfold is_divisible. apply Z.eqb_neq in Hp as Hp'. rewrite Hp'.
  apply Z.eqb_neq. intros Hr. apply Hd. apply Z.rem_divide; assumption.
Qed.

Lemma is_divisible_self n : n <> 0 -> is_divisible n n = true.
Proof.
  intros Hn. unfold is_divisible. apply Z.eqb_neq in Hn as Hn'. rewrite Hn'.
  rewrite Z.rem_same by exact Hn. reflexivity.
Qed.

(** Trial division by primes none of which divides [n] leaves [n] alone. *)
Lemma trial_division_noop primes fuel n m :
  (forall p, In p primes -> (2 <= p)%N /\ ~ (Z.of_N p | n)) ->
  trial_division primes fuel n m = Ret (n, m).
Proof.
  intros H. unfold trial_division. apply foldM_id. intros p Hp.
  destruct (H p Hp) as [H2 Hnd]. rewrite is_divisible_false by lia || assumption. reflexivity.
Qed.

Lemma not_divide_one p : (2 <= p)%N -> ~ (Z.of_N p | 1).
Proof. intros H Hd. apply Z.divide_pos_le in Hd; lia. Qed.

Lemma not_divide_minus_one p : (2 <= p)%N -> ~ (Z.of_N p | -1).
Proof. intros H Hd. apply Z.divide_opp_r in Hd. exact (not_divide_one p H Hd). Qed.

Lemma foldM_cons {A B} (f : A -> B -> Outcome A) b l a :
  foldM f (b :: l) a = f a b ≫= foldM f l.
Proof. reflexivity. Qed.

Lemma small_primes_no_divisor_one fuel m : trial_division small_primes fuel 1 m = Ret (1, m).
Proof.
  apply trial_division_noop. intros p Hp.
  pose proof small_primes_ge_2 as H. rewrite List.Forall_forall in H.
  split; [apply H, Hp | apply not_divide_one, H, Hp].
Qed.

Lemma small_primes_no_divisor_minus_one fuel m :
  trial_division small_primes fuel (-1) m = Ret (-1, m).
Proof.
  apply trial_division_noop. intros p Hp.
  pose proof small_primes_ge_2 as H. rewrite List.Forall_forall in H.
  split; [apply H, Hp | apply not_divide_minus_one, H, Hp].
Qed.

(** A prime of the list divides the product of the list. *)
Lemma divide_fold_mul (L : list N) p :
  In p L -> (Z.of_N p | Z.of_N (fold_right N.mul 1%N L)).
Proof.
  induction L as [|a L IH]; intros Hp; [destruct Hp|].
  cbn [fold_right]. rewrite N2Z.inj_mul. destruct Hp as [->|Hp].
  - apply Z.divide_factor_l.
  - apply Z.divide_mul_r, IH, Hp.
Qed.

Lemma fold_mul_pos (L : list N) :
  Forall (fun p => (2 <= p)%N) L -> (1 <= fold_right N.mul 1%N L)%N.
Proof. induction 1; cbn [fold_right]; nia. Qed.

(** [big_square] is at least 4, and no trial-division prime divides it. *)
Lemma big_square_facts :
  4 <= big_square /\
  forall p, In p small_primes -> (2 <= p)%N /\ ~ (Z.of_N p | big_square).
Proof.
  unfold big_square. generalize small_primes_ge_2. generalize small_primes.
  intros L HL. pose proof (fold_mul_pos L HL) as Hpos.
  split; [nia|]. intros p Hp.
  rewrite List.Forall_forall in HL. pose proof (HL p Hp) as H2. split; [exact H2|].
  set (q := 1 + Z.of_N (fold_right N.mul 1%N L)).
  destruct (divide_fold_mul L p Hp) as [k Hk].
  assert (Hcop : Z.coprime (Z.of_N p) q).
  { apply Z.Bezout_coprime_iff. exists (- k), 1. unfold q. rewrite Hk. ring. }
  apply (Z.coprime_pow_r _ _ 2) in Hcop; [|lia].
  intros Hd. unfold Z.coprime in Hcop.
  assert (H1 : (Z.of_N p | 1)).
  { rewrite <- Hcop. apply Z.gcd_greatest; [apply Z.divide_refl | exact Hd]. }
  exact (not_divide_one p H2 H1).
Qed.

Lemma big_square_composite : is_probably_prime big_square 25 = No.
Proof.
  unfold is_probably_prime, big_square.
  generalize small_primes_ge_2. generalize small_primes.
  intros L HL. pose proof (fold_mul_pos L HL) as Hpos.
  set (q := (1 + fold_right N.mul 1%N L)%N).
  replace (Z.abs_N ((1 + Z.of_N (fold_right N.mul 1%N L)) ^ 2)) with (q * q)%N.
  - rewrite prime_b_square by lia. reflexivity.
  - apply N2Z.inj. rewrite N2Z.inj_abs_N, N2Z.inj_mul. unfold q.
    rewrite N2Z.inj_add. rewrite Z.abs_eq by lia. cbn. ring.
Qed.

Section Runs.
Context {RS : Type} `{!RandGen RS}.

Lemma ecm_loop_one fuel b1 b2 mc m rs : ecm_loop fuel b1 b2 mc 1 m rs = Ret m.
Proof. destruct fuel; reflexivity. Qed.

(** Odd bounds are refused first, and nothing is drawn. *)
Lemma ecm_one_factor_odd_bounds n b1 b2 mc rgen :
  (N.modulo b1 2 <> 0 \/ N.modulo b2 2 <> 0)%N ->
  ecm_one_factor n b1 b2 mc rgen = Ret (Err BoundsNotEven, rgen).
Proof.
  unfold ecm_one_factor. intros [H|H]; apply N.eqb_neq in H; rewrite H;
    [reflexivity | rewrite orb_true_r; reflexivity].
Qed.

(** With even bounds a prime is refused by the primality test, and nothing
    is drawn. *)
Lemma ecm_one_factor_prime n b1 b2 mc rgen :
  Z.prime n -> N.modulo b1 2 = 0%N -> N.modulo b2 2 = 0%N ->
  ecm_one_factor n b1 b2 mc rgen = Ret (Err NumberIsPrime, rgen).
Proof.
  intros Hp H1 H2. unfold ecm_one_factor. rewrite H1, H2. cbn [N.eqb negb orb].
  assert (Hb : prime_b (Z.abs_N n) = true).
  { apply prime_prime_b. rewrite N2Z.inj_abs_N, Z.abs_eq; [exact Hp|].
    apply Z.prime_ge_2 in Hp. lia. }
  unfold is_probably_prime. rewrite Hb. reflexivity.
Qed.

Lemma ecm_with_params_one b1 b2 mc seed fuel :
  ecm_with_params 1 b1 b2 mc seed fuel = Ret (Ok ∅).
Proof.
  unfold ecm_with_params. rewrite small_primes_no_divisor_one.
  cbn [mbind outcome_bind]. rewrite ecm_loop_one. reflexivity.
Qed.

(** [N = 2]: trial division by 2 leaves 1. *)
Lemma ecm_with_params_two b1 b2 mc seed fuel :
  (1 <= fuel)%nat ->
  ecm_with_params 2 b1 b2 mc seed fuel = Ret (Ok {[2 := 1%nat]}).
Proof.
  intros Hf. destruct fuel as [|f]; [lia|].
  unfold ecm_with_params. unfold trial_division at 1. rewrite small_primes_cons.
  generalize (primes_from_prime_b 99999 3). generalize (primes_from 99999 3).
  intros L HL. rewrite foldM_cons.
  cbn [is_divisible Z.of_N Z.eqb Z.rem].
  change (Z.rem 2 2 =? 0) with true. cbv iota.
  rewrite divide_out_step by (reflexivity || lia).
  change (Z.quot 2 2) with 1.
  rewrite divide_out_stop by reflexivity.
  rewrite incr_empty. cbn [mbind outcome_bind].
  change (foldM ?g L (1, ?m)) with (trial_division L (S f) 1 m).
  rewrite trial_division_noop.
  2:{ intros p Hp. rewrite List.Forall_forall in HL. apply HL, prime_b_spec in Hp as [H2 _].
      split; [exact H2 | apply not_divide_one, H2]. }
  cbn [mbind outcome_bind]. rewrite ecm_loop_one. reflexivity.
Qed.

(** [big_square] with an odd [b1]: trial division finds nothing,
    [ecm_one_factor] refuses the bounds, and the residual is recorded as-is. *)
Lemma ecm_with_params_big_square b1 b2 mc seed fuel :
  N.modulo b1 2 <> 0%N -> (1 <= fuel)%nat ->
  ecm_with_params big_square b1 b2 mc seed fuel = Ret (Ok {[big_square := 1%nat]}).
Proof.
  intros Hb1 Hf. destruct big_square_facts as [H4 Hnd].
  unfold ecm_with_params. rewrite trial_division_noop by exact Hnd.
  cbn [mbind outcome_bind].
  generalize dependent big_square. intros B H4 _.
  destruct fuel as [|f]; [lia|]. rewrite ecm_loop_S.
  rewrite (proj2 (Z.eqb_neq B 1)) by lia.
  rewrite ecm_one_factor_odd_bounds by (left; exact Hb1).
  cbn [mbind outcome_bind unwrap_or].
  rewrite divide_out_step by (apply is_divisible_self; lia) || lia.
  rewrite Z.quot_same by lia.
  rewrite divide_out_stop.
  2:{ apply is_divisible_false; [lia|]. intros Hd. apply Z.divide_pos_le in Hd; lia. }
  rewrite incr_empty. cbn [mbind outcome_bind]. rewrite ecm_loop_one. reflexivity.
Qed.

End Runs.

(** [ecm(-1)]: the decimal length is 2, so [B1 = 2000]; [-1] is not prime,
    and drawing [sigma] below [-2] panics. *)
Lemma ecm_one_factor_minus_one {RS : Type} `{!RandGen RS} rgen :
  ecm_one_factor (-1) (optimal_b1 (dec_len (-1))) 100000 200 rgen = Panic.
Proof. reflexivity. Qed.

Lemma ecm_minus_one {RS : Type} `{!RandGen RS} fuel : ecm (-1) (S fuel) = Panic.
Proof.
  unfold ecm, ecm_with_params. rewrite small_primes_no_divisor_minus_one.
  cbn [mbind outcome_bind]. rewrite ecm_loop_S, ecm_one_factor_minus_one. reflexivity.
Qed.

(* ------------------------------------------------------------------ *)
(** ** Counting the curves: every curve draws one [sigma] *)

Section Counting.
Context {RS : Type} `{!RandGen RS}.

Lemma one_curve_count n b1 b2 d k s beta r c res s' beta' r' c' :
  one_curve (RS := RS * nat) n b1 b2 d k s beta (r, c) = Ret (res, s', beta', (r', c')) ->
  c' = S c.
Proof.
  unfold one_curve, random_below_checked. destruct (n - 1 <=? 0); [discriminate|].
  cbn [mbind outcome_bind random_below counting_rand fst snd].
  destruct (random_below (n - 1) r) as [sigma r1]. cbn beta iota.
  intros H. apply bind_Ret_inv in H as ([g|q0] & _ & H).
  - injection H; intros; subst; reflexivity.
  - repeat match type of H with
           | context [if ?b then _ else _] => destruct b
           end;
      try (injection H; intros; subst; reflexivity).
    apply bind_Ret_inv in H as ([s2 beta2] & _ & H).
    apply bind_Ret_inv in H as (g & _ & H).
    destruct (negb (g =? n) && negb (g =? 1)); injection H; intros; subst; reflexivity.
Qed.

(** [curve_loop] that gives up has drawn once for each curve from [curve]
    to [max_curve] inclusive. *)
Lemma curve_loop_count fuel n b1 b2 mc d k curve s beta r c r' c' :
  (N.to_nat mc + 1 - N.to_nat curve < fuel)%nat -> (curve <= mc + 1)%N ->
  curve_loop (RS := RS * nat) fuel n b1 b2 mc d k curve s beta (r, c)
    = Ret (Err ECMFailed, (r', c')) ->
  c' = (c + (N.to_nat mc + 1 - N.to_nat curve))%nat.
Proof.
  revert curve s beta r c. induction fuel as [|f IH]; intros curve s beta r c Hf Hc H; [lia|].
  cbn [curve_loop] in H. destruct (N.leb_spec curve mc) as [Hle|Hgt].
  - apply bind_Ret_inv in H as ([[[res s2] beta2] [r2 c2]] & Hone & H).
    apply one_curve_count in Hone. subst c2.
    destruct res as [g|]; [discriminate|].
    apply IH in H; lia.
  - injection H; intros; subst. lia.
Qed.

Lemma ecm_one_factor_count n b1 b2 mc r r' c :
  ecm_one_factor (RS := RS * nat) n b1 b2 mc (r, 0%nat) = Ret (Err ECMFailed, (r', c)) ->
  c = S (N.to_nat mc).
Proof.
  unfold ecm_one_factor.
  destruct (negb (N.eqb (N.modulo b1 2) 0) || negb (N.eqb (N.modulo b2 2) 0)); [discriminate|].
  destruct (negb (IsPrime_eqb (is_probably_prime n 1000) No)); [discriminate|].
  intros H. apply curve_loop_count in H; lia.
Qed.
End Counting.

(* ------------------------------------------------------------------ *)
(** ** Ranges of the coordinates *)

Lemma rem_reduced a m : 0 < m -> - m < Z.rem a m < m.
Proof. intros Hm. pose proof (Z.rem_bound_abs a m ltac:(lia)). lia. Qed.

Lemma rem_canonical a m : 0 <= a -> 0 < m -> 0 <= Z.rem a m < m.
Proof. apply Z.rem_bound_pos. Qed.

Lemma add_reduced p q diff : 0 < modulus p -> reduced (add p q diff).
Proof. intros Hm. split; apply rem_reduced; exact Hm. Qed.

Lemma double_reduced p : 0 < modulus p -> reduced (double p).
Proof. intros Hm. split; apply rem_reduced; exact Hm. Qed.

Lemma nonneg_mul_square y a : 0 <= y -> 0 <= y * a * a.
Proof.
  intros Hy. rewrite <- Z.mul_assoc. apply Z.mul_nonneg_nonneg; [exact Hy | apply Z.square_nonneg].
Qed.

Lemma add_canonical p q diff :
  0 < modulus p -> 0 <= x_cord diff -> 0 <= z_cord diff -> canonical (add p q diff).
Proof.
  intros Hm Hx Hz. split; apply rem_canonical; try exact Hm; apply nonneg_mul_square; assumption.
Qed.

Lemma double_canonical p :
  0 < modulus p -> 0 <= x_cord p -> 0 <= z_cord p -> 0 <= a_24 p -> canonical (double p).
Proof.
  intros Hm Hx Hz Ha. unfold canonical, double. cbn [x_cord z_cord modulus].
  rewrite !Z.pow_2_r.
  assert (Hd : (x_cord p + z_cord p) * (x_cord p + z_cord p)
               - (x_cord p - z_cord p) * (x_cord p - z_cord p) = 4 * x_cord p * z_cord p) by ring.
  rewrite Hd. split; apply rem_canonical; try exact Hm.
  - apply Z.mul_nonneg_nonneg; apply Z.square_nonneg.
  - apply Z.mul_nonneg_nonneg; [apply Z.add_nonneg_nonneg; [apply Z.square_nonneg|] |]; nia.
Qed.

Lemma mont_ladder_canonical p k :
  0 < modulus p -> canonical p -> 0 <= a_24 p ->
  canonical (mont_ladder p k) /\ modulus (mont_ladder p k) = modulus p
  /\ a_24 (mont_ladder p k) = a_24 p.
Proof.
  intros Hm Hp Ha. unfold mont_ladder.
  set (Inv := fun (pt : Point) => canonical pt /\ modulus pt = modulus p /\ a_24 pt = a_24 p).
  enough (H : forall bits qr, Inv (fst qr) -> Inv (snd qr) ->
                Inv (fst (fold_left (ladder_step p) bits qr))) by
    (apply H; cbn; [unfold Inv; auto | unfold Inv; split; [apply double_canonical; apply Hp || lia || auto| auto]]).
  intros bits. induction bits as [|bit bits IH]; intros [q r] Hq Hr; cbn in *; [exact Hq|].
  apply IH; destruct bit; cbn;
    (destruct Hq as (Hqc & Hqm & Hqa); destruct Hr as (Hrc & Hrm & Hra); destruct Hp as [Hpx Hpz]).
  all: split; [|cbn; split; [assumption || lia | assumption]].
  all: first [ apply add_canonical; lia
             | apply double_canonical; destruct Hqc, Hrc; lia ].
Qed.

Lemma invert_nonneg a m x : m <> 0 -> invert a m = Some x -> 0 <= x.
Proof.
  unfold invert. intros Hm. destruct (Z.gcd a m =? 1); [|discriminate].
  intros H. injection H as <-. apply Z.mod_pos_bound. lia.
Qed.

Lemma suyama_reduced n sigma q :
  0 < n -> suyama n sigma = Ret (SuyamaCurve q) ->
  modulus q = n /\ reduced q.
Proof.
  intros Hn. unfold suyama. cbv zeta.
  destruct (invert _ n) as [ci|]; [|discriminate].
  destruct (invert 4 n) as [i4|]; [|discriminate].
  intros H. injection H as <-. unfold reduced; cbn.
  split; [reflexivity | split; apply rem_reduced; exact Hn].
Qed.

Lemma rem_ge_minus_two a m : -2 <= a -> 0 < m -> -2 <= Z.rem a m.
Proof.
  intros Ha Hm. destruct (Z.le_gt_cases 0 a).
  - pose proof (Z.rem_bound_pos a m). lia.
  - replace a with (- (- a)) by ring. rewrite Z.rem_opp_l by lia.
    pose proof (Z.rem_le (- a) m). pose proof (Z.rem_bound_pos (- a) m). lia.
Qed.

Lemma suyama_canonical n sigma q :
  0 < n -> 3 <= sigma -> suyama n sigma = Ret (SuyamaCurve q) ->
  modulus q = n /\ canonical q /\ 0 <= a_24 q.
Proof.
  intros Hn Hs. unfold suyama. cbv zeta.
  assert (Hu : 0 <= Z.rem (sigma * sigma - 5) n).
  { assert (0 <= sigma * sigma - 5) by nia. pose proof (rem_canonical _ _ H Hn). lia. }
  assert (Hv : 0 <= Z.rem (4 * sigma) n).
  { assert (0 <= 4 * sigma) by lia. pose proof (rem_canonical _ _ H Hn). lia. }
  destruct (invert _ n) as [ci|] eqn:Eci; [|discriminate].
  destruct (invert 4 n) as [i4|] eqn:Ei4; [|discriminate].
  apply invert_nonneg in Eci; [|lia]. apply invert_nonneg in Ei4; [|lia].
  intros H. injection H as <-. unfold canonical; cbn [modulus x_cord z_cord a_24].
  split; [reflexivity|]. split; [split; apply rem_canonical; try exact Hn|].
  - apply Z.pow_nonneg. exact Hu.
  - apply Z.pow_nonneg. exact Hv.
  - apply rem_canonical; [|exact Hn]. apply Z.mul_nonneg_nonneg; [|exact Ei4].
    match goal with |- 0 <= Z.rem (?X - 2) n + 2 =>
      assert (HX : 0 <= X);
      [| pose proof (rem_ge_minus_two (X - 2) n ltac:(lia) Hn); lia] end.
    apply Z.mul_nonneg_nonneg; [apply Z.mul_nonneg_nonneg|exact Eci].
    + unfold pow_mod. apply Z.mod_pos_bound. exact Hn.
    + lia.
Qed.

Lemma suyama_four sigma : suyama 4 sigma = Ret (SuyamaFactor 4).
Proof.
  unfold suyama, invert. cbv zeta.
  rewrite <- !Z.mul_assoc.
  match goal with |- context [Z.gcd (4 * ?y) 4] =>
    assert (Hg : Z.gcd (4 * y) 4 = 4) end.
  { rewrite Z.gcd_comm. apply Z.divide_gcd_iff; [lia|]. apply Z.divide_factor_l. }
  rewrite Hg. reflexivity.
Qed.

(* ------------------------------------------------------------------ *)
(** ** Where the keys come from *)

Lemma incr_lookup_Some p m k e :
  incr p m !! k = Some e -> k = p \/ exists e', m !! k = Some e'.
Proof. unfold incr. rewrite lookup_insert_Some. intros [[-> _]|[_ H]]; eauto. Qed.

(** [divide_out] adds no key but its divisor. *)
Lemma divide_out_keys fuel n p m n' m' :
  divide_out fuel n p m = Ret (n', m') ->
  forall k e, m' !! k = Some e -> k = p \/ exists e', m !! k = Some e'.
Proof.
  revert n m. induction fuel as [|f IH]; intros n m H k e Hk; cbn [divide_out] in H;
    destruct (is_divisible n p); try discriminate;
    try (injection H as <- <-; eauto; fail).
  unfold div_checked in H. destruct (p =? 0); [discriminate|]. cbn [mbind outcome_bind] in H.
  destruct (IH _ _ H k e Hk) as [->|[e' He']]; [auto|].
  apply incr_lookup_Some in He'. destruct He' as [->|He']; eauto.
Qed.

Section Origin.
Context {RS : Type} `{!RandGen RS}.
Variables (b1 b2 mc : N).

Lemma trial_division_origin fuel n n' m' :
  trial_division small_primes fuel n ∅ = Ret (n', m') ->
  forall k e, m' !! k = Some e -> factor_origin b1 b2 mc k.
Proof.
  unfold trial_division. intros H.
  enough (Hk : forall k e, m' !! k = Some e -> exists q, In q small_primes /\ k = Z.of_N q).
  { intros k e He. destruct (Hk k e He) as (q & Hq & ->). left. exists q.
    split; [exact Hq|]. split; [reflexivity|]. apply prime_b_prime.
    pose proof small_primes_prime_b as Hall. rewrite List.Forall_forall in Hall. auto. }
  refine (foldM_inv (fun '(n2, m2) => forall k e, m2 !! k = Some e ->
                        exists q, In q small_primes /\ k = Z.of_N q) _ _ _ _ _ _ H).
  - intros k e He. rewrite lookup_empty in He. discriminate.
  - intros [n1 m1] p [n2 m2] Hp Hinv Hstep k e He.
    destruct (is_divisible n1 (Z.of_N p)).
    + destruct (divide_out_keys _ _ _ _ _ _ Hstep k e He) as [->|[e' He']]; eauto.
    + injection Hstep as <- <-. eauto.
Qed.

Lemma ecm_loop_origin fuel n m rs m' :
  (forall k e, m !! k = Some e -> factor_origin b1 b2 mc k) ->
  ecm_loop fuel b1 b2 mc n m rs = Ret m' ->
  forall k e, m' !! k = Some e -> factor_origin b1 b2 mc k.
Proof.
  revert n m rs. induction fuel as [|f IH]; intros n m rs Hm H;
    [cbn in H | rewrite ecm_loop_S in H];
    destruct (Z.eqb n 1); try (injection H as <-; exact Hm); try discriminate.
  apply bind_Ret_inv in H as ([res rs'] & Hone & H).
  apply bind_Ret_inv in H as ([n2 m2] & Hd & H).
  apply (IH n2 m2 rs'); [|exact H].
  intros k e He. destruct (divide_out_keys _ _ _ _ _ _ Hd k e He) as [->|[e' He']]; [|eauto].
  right. destruct res as [g|err]; cbn [unwrap_or].
  - left. eauto.
  - right. eauto.
Qed.

Lemma ecm_with_params_origin n seed fuel m :
  ecm_with_params n b1 b2 mc seed fuel = Ret (Ok m) ->
  forall k e, m !! k = Some e -> factor_origin b1 b2 mc k.
Proof.
  unfold ecm_with_params. intros H.
  apply bind_Ret_inv in H as ([n' m1] & Ht & H).
  apply bind_Ret_inv in H as (m2 & Hl & H). injection H as <-.
  eapply ecm_loop_origin; [|exact Hl]. eapply trial_division_origin. exact Ht.
Qed.
End Origin.

(* ================================================================== *)
(** * The claims *)

(** C1: for every [N >= 2] on which the driver terminates with a mapping
    (through [ecm_with_params] or [ecm]), the product of [p ^ e] over the
    mapping is [N]. *)
Theorem ecm_with_params_product_eq {RS : Type} `{!RandGen RS}
    (n : Z) (b1 b2 mc seed : N) (fuel : nat) (m : gmap Z nat) :
  2 <= n ->
  ecm_with_params n b1 b2 mc seed fuel = Ret (Ok m) \/ ecm n fuel = Ret (Ok m) ->
  factors_product m = n.
Proof.
  intros _ [H|H]; [|unfold ecm in H]; exact (ecm_with_params_product _ _ _ _ _ _ _ H).
Qed.

Lemma ecm_with_params_product_eq_witness :
  2 <= 2 /\ ecm_with_params (RS := Lcg) 2 2000 100000 200 1234 1 = Ret (Ok {[2 := 1%nat]})
  /\ factors_product {[2 := 1%nat]} = 2.
Proof.
  split; [lia|]. split; [apply ecm_with_params_two; lia|].
  apply (ecm_with_params_product_eq (RS := Lcg) 2 2000 100000 200 1234 1); [lia|].
  left. apply ecm_with_params_two. lia.
Defined.

(** C2 (as amended): every key of the mapping returned by [ecm_with_params]
    is a trial-division prime, a factor that [ecm_one_factor] returned on
    some residual, or a residual on which [ecm_one_factor] returned an error
    and which was recorded as-is; keys of the last kind need not be
    probable primes. *)
Theorem ecm_with_params_key_origin {RS : Type} `{!RandGen RS}
    (n : Z) (b1 b2 mc seed : N) (fuel : nat) (m : gmap Z nat) (k : Z) (e : nat) :
  ecm_with_params n b1 b2 mc seed fuel = Ret (Ok m) ->
  m !! k = Some e ->
  factor_origin b1 b2 mc k.
Proof. intros H. exact (ecm_with_params_origin b1 b2 mc n seed fuel m H k e). Qed.

Lemma ecm_with_params_key_origin_witness :
  ecm_with_params (RS := Lcg) 2 2000 100000 200 1234 1 = Ret (Ok {[2 := 1%nat]}) /\
  factor_origin (RS := Lcg) 2000 100000 200 2.
Proof.
  split; [apply ecm_with_params_two; lia|].
  apply (ecm_with_params_key_origin (RS := Lcg) 2 2000 100000 200 1234 1 {[2 := 1%nat]} 2 1).
  - apply ecm_with_params_two. lia.
  - apply lookup_singleton_eq.
Defined.

(** C2, counterexample: with an odd [B1], [ecm_with_params] on [big_square]
    returns the mapping [{big_square: 1}], and [big_square] is not a
    probable prime. *)
Lemma ecm_with_params_composite_key :
  ecm_with_params (RS := Lcg) big_square 1 2 0 1234 1 = Ret (Ok {[big_square := 1%nat]}) /\
  is_probably_prime big_square 25 = No.
Proof.
  split; [apply ecm_with_params_big_square; [discriminate | lia] | exact big_square_composite].
Qed.

(** C3 (a slip of the Suyama path): on [n = 4] with even bounds,
    [ecm_one_factor] returns [Ok 4], the input itself, whatever the random
    state and [max_curve]: [4 u^3 v] is a multiple of 4, so its inversion
    fails and [gcd(4 u^3 v, 4) = 4] is returned without the check [g != n]
    of Stage 1 and Stage 2. *)
Theorem ecm_one_factor_returns_n {RS : Type} `{!RandGen RS} (mc : N) (rgen : RS) :
  ecm_one_factor 4 2 2 mc rgen = Ret (Ok 4, snd (random_below 3 rgen)).
Proof.
  unfold ecm_one_factor.
  change (negb (N.eqb (N.modulo 2 2) 0) || negb (N.eqb (N.modulo 2 2) 0)) with false.
  change (negb (IsPrime_eqb (is_probably_prime 4 1000) No)) with false.
  cbv iota zeta. cbn [curve_loop].
  replace (N.leb 0 mc) with true by (symmetry; apply N.leb_le; lia).
  unfold one_curve, random_below_checked.
  change (4 - 1 <=? 0) with false. change (4 - 1) with 3. cbv iota.
  destruct (random_below 3 rgen) as [sigma r']. cbn [mbind outcome_bind].
  rewrite suyama_four. reflexivity.
Qed.

(** C4 (as amended): coordinates are reduced with the truncated remainder.
    A Suyama point and every result of [add] and [double] have coordinates
    in (-N, N); with [sigma >= 3] the Suyama point has coordinates in
    [0, N) and [a_24 >= 0], and [mont_ladder] keeps such points in [0, N). *)
Theorem point_coordinate_ranges :
  (forall n sigma q, 0 < n -> suyama n sigma = Ret (SuyamaCurve q) ->
     modulus q = n /\ reduced q) /\
  (forall n sigma q, 0 < n -> 3 <= sigma -> suyama n sigma = Ret (SuyamaCurve q) ->
     modulus q = n /\ canonical q /\ 0 <= a_24 q) /\
  (forall p q diff, 0 < modulus p -> reduced (add p q diff) /\ reduced (double p)) /\
  (forall p k, 0 < modulus p -> canonical p -> 0 <= a_24 p -> canonical (mont_ladder p k)).
Proof.
  split; [exact suyama_reduced|]. split; [exact suyama_canonical|]. split.
  - intros p q diff Hm. split; [apply add_reduced | apply double_reduced]; exact Hm.
  - intros p k Hm Hp Ha. apply (mont_ladder_canonical p k Hm Hp Ha).
Qed.

(** C4, counterexample: [sigma = 2], drawn in [0, 8) for [N = 9], gives
    the Suyama point [(-1 : 8)]. *)
Lemma suyama_negative_x :
  suyama 9 2 = Ret (SuyamaCurve (mkPoint (-1) 8 0 9)).
Proof. vm_compute. reflexivity. Qed.

(** C5 (an off-by-one): [while curve <= max_curve] runs one curve more than
    [max_curve]: every run of [ecm_one_factor] that ends in [ECMFailed] has
    drawn [max_curve + 1] values of [sigma], one per curve. *)
Theorem ecm_one_factor_draws_max_curve_plus_one {RS : Type} `{!RandGen RS}
    (n : Z) (b1 b2 mc : N) (r r' : RS) (c : nat) :
  ecm_one_factor (RS := RS * nat) n b1 b2 mc (r, 0%nat) = Ret (Err ECMFailed, (r', c)) ->
  c = S (N.to_nat mc).
Proof. apply ecm_one_factor_count. Qed.

Lemma ecm_one_factor_draws_max_curve_plus_one_witness :
  ecm_one_factor (RS := Lcg * nat) 15 6 8 1 (mkLcg 1, 0%nat)
    = Ret (Err ECMFailed, (mkLcg 377401575, 2%nat)) /\ 2%nat = S (N.to_nat 1).
Proof.
  split; [vm_compute; reflexivity|].
  apply (ecm_one_factor_draws_max_curve_plus_one (RS := Lcg) 15 6 8 1 (mkLcg 1) (mkLcg 377401575)).
  vm_compute. reflexivity.
Defined.

(** C6 (a slip of Stage 2): for [B1 = 38], [B2 = 100] ([b = 37],
    [d = 10]) the windows and the primes the inner loop visits: the prime
    [q = 37 = rr] is visited (with [delta = 0]), and the primes 59, 79 and
    101 are pulled out of the stream by [take_while] and never visited. *)
Theorem stage2_schedule_37_100 :
  stage2_schedule (38 - 1) 100 (2 * N.of_nat (N.to_nat (N.sqrt 100))) =
  [(37%N, [37%N; 41%N; 43%N; 47%N; 53%N]);
   (57%N, [61%N; 67%N; 71%N; 73%N]);
   (77%N, [83%N; 89%N; 97%N]);
   (97%N, [103%N; 107%N; 109%N; 113%N])].
Proof. vm_compute. reflexivity. Qed.

(** C7: an odd [b1] or [b2] gives [BoundsNotEven] for every [n] (prime or
    not), [max_curve] and random state, and the random state comes back
    unchanged: nothing was drawn. *)
Theorem ecm_one_factor_bounds_checked_first {RS : Type} `{!RandGen RS}
    (n : Z) (b1 b2 mc : N) (rgen : RS) :
  (N.modulo b1 2 <> 0 \/ N.modulo b2 2 <> 0)%N ->
  ecm_one_factor n b1 b2 mc rgen = Ret (Err BoundsNotEven, rgen).
Proof. apply ecm_one_factor_odd_bounds. Qed.

Lemma ecm_one_factor_bounds_checked_first_witness :
  (N.modulo 3 2 <> 0)%N /\
  ecm_one_factor (RS := Lcg) 17 3 2 0 (mkLcg 5) = Ret (Err BoundsNotEven, mkLcg 5).
Proof.
  split; [discriminate|].
  apply ecm_one_factor_bounds_checked_first. left. discriminate.
Defined.

(** C8 (as amended): a prime [N] with even bounds gives [NumberIsPrime], for
    every [max_curve] and random state; odd bounds give [BoundsNotEven]
    first. *)
Theorem ecm_one_factor_prime_even_bounds {RS : Type} `{!RandGen RS}
    (n : Z) (b1 b2 mc : N) (rgen : RS) :
  Z.prime n -> N.modulo b1 2 = 0%N -> N.modulo b2 2 = 0%N ->
  ecm_one_factor n b1 b2 mc rgen = Ret (Err NumberIsPrime, rgen).
Proof. apply ecm_one_factor_prime. Qed.

Lemma ecm_one_factor_prime_even_bounds_witness :
  Z.prime 17 /\
  ecm_one_factor (RS := Lcg) 17 2 2 0 (mkLcg 5) = Ret (Err NumberIsPrime, mkLcg 5).
Proof.
  split; [apply (prime_b_prime 17); reflexivity|].
  apply ecm_one_factor_prime_even_bounds; [apply (prime_b_prime 17); reflexivity | reflexivity | reflexivity].
Defined.

(** C8, counterexample: 17 is prime, and with [b1 = 3] [ecm_one_factor]
    gives [BoundsNotEven]. *)
Lemma ecm_one_factor_prime_odd_bound :
  Z.prime 17 /\
  ecm_one_factor (RS := Lcg) 17 3 2 0 (mkLcg 0) = Ret (Err BoundsNotEven, mkLcg 0).
Proof. split; [apply (prime_b_prime 17); reflexivity | reflexivity]. Qed.

(** C9 (as amended): [ecm 1] returns the empty mapping; negative inputs are
    not checked: [ecm (-1)] panics ([random_below] on the bound [-2]), and
    no negative input gives an error. *)
Theorem ecm_small_and_negative {RS : Type} `{!RandGen RS} :
  (forall fuel, ecm 1 fuel = Ret (Ok ∅)) /\
  (forall fuel, ecm (-1) (S fuel) = Panic) /\
  (forall n fuel, n < 0 ->
     ecm n fuel = Panic \/ ecm n fuel = Diverge \/ exists m, ecm n fuel = Ret (Ok m)).
Proof.
  split; [intros fuel; unfold ecm; apply ecm_with_params_one|]. split; [exact ecm_minus_one|].
  intros n fuel _. unfold ecm. apply ecm_with_params_shape.
Qed.

(** C9, counterexample: [ecm (-1)] panics instead of returning an error. *)
Lemma ecm_minus_one_panics : ecm (RS := Lcg) (-1) 1 = Panic.
Proof. apply ecm_minus_one. Qed.

(** C10: [ecm_with_params] and [ecm] never return [Err]: they return [Ok] of
    a mapping, panic, or do not terminate. *)
Theorem ecm_with_params_never_err {RS : Type} `{!RandGen RS}
    (n : Z) (b1 b2 mc seed : N) (fuel : nat) :
  (ecm_with_params n b1 b2 mc seed fuel = Panic \/
   ecm_with_params n b1 b2 mc seed fuel = Diverge \/
   exists m, ecm_with_params n b1 b2 mc seed fuel = Ret (Ok m)) /\
  (ecm n fuel = Panic \/ ecm n fuel = Diverge \/ exists m, ecm n fuel = Ret (Ok m)).
Proof. split; [|unfold ecm]; apply ecm_with_params_shape. Qed.

(* ================================================================== *)
(** * Lemmas on the rest of the code *)

Lemma egcd_coeff_spec a m (k : nat) : forall fuel r0 r1 s0 s1,
  (2 * k + 1 <= fuel)%nat -> 0 <= r1 <= r0 -> r0 < 2 ^ Z.of_nat k ->
  (m | r0 - s0 * a) -> (m | r1 - s1 * a) ->
  (m | Z.gcd r0 r1 - egcd_coeff fuel r0 r1 s0 s1 * a).
Proof.
  induction k as [|k IH]; intros fuel r0 r1 s0 s1 Hf Hr Hr0 H0 H1.
  - change (2 ^ Z.of_nat 0) with 1 in Hr0.
    assert (r0 = 0 /\ r1 = 0) as [-> ->] by lia.
    destruct fuel as [|f]; [lia|]. cbn. exact H0.
  - destruct fuel as [|f]; [lia|]. cbn [egcd_coeff].
    destruct (Z.eqb_spec r1 0) as [->|Hr1].
    { rewrite Z.gcd_0_r, Z.abs_eq by lia. exact H0. }
    set (r2 := r0 - r0 / r1 * r1). set (s2 := s0 - r0 / r1 * s1).
    assert (Hr2 : r2 = r0 mod r1) by (unfold r2; rewrite Z.mod_eq by lia; ring).
    assert (Hb2 : 0 <= r2 < r1) by (rewrite Hr2; apply Z.mod_pos_bound; lia).
    assert (Hg : Z.gcd r0 r1 = Z.gcd r1 r2).
    { rewrite Hr2, Z.gcd_comm, <- Z.gcd_mod by lia. rewrite Z.gcd_comm. reflexivity. }
    rewrite Hg.
    assert (H2 : (m | r2 - s2 * a)).
    { replace (r2 - s2 * a) with ((r0 - s0 * a) - r0 / r1 * (r1 - s1 * a)) by (unfold r2, s2; ring).
      apply Z.divide_sub_r; [exact H0 | apply Z.divide_mul_r; exact H1]. }
    destruct f as [|f]; [lia|]. cbn [egcd_coeff].
    destruct (Z.eqb_spec r2 0) as [Hz|Hz].
    { rewrite Hz, Z.gcd_0_r, Z.abs_eq by lia. exact H1. }
    set (r3 := r1 - r1 / r2 * r2). set (s3 := s1 - r1 / r2 * s2).
    assert (Hr3 : r3 = r1 mod r2) by (unfold r3; rewrite Z.mod_eq by lia; ring).
    assert (Hb3 : 0 <= r3 < r2) by (rewrite Hr3; apply Z.mod_pos_bound; lia).
    assert (Hg' : Z.gcd r1 r2 = Z.gcd r2 r3).
    { rewrite Hr3, Z.gcd_comm, <- Z.gcd_mod by lia. rewrite Z.gcd_comm. reflexivity. }
    rewrite Hg'.
    (* two steps halve the larger remainder *)
    assert (Hhalf : 2 * r2 < r0 + 1).
    { rewrite Hr2. destruct (Z.le_gt_cases (2 * r1) r0).
      - pose proof (Z.mod_pos_bound r0 r1 ltac:(lia)). lia.
      - assert (r0 / r1 = 1).
        { symmetry. apply Z.div_unique with (r := r0 - r1); [lia | ring]. }
        rewrite Z.mod_eq by lia. lia. }
    apply IH; [lia | lia | | exact H2 |].
    + rewrite Nat2Z.inj_succ, Z.pow_succ_r in Hr0 by lia. lia.
    + replace (r3 - s3 * a) with ((r1 - s1 * a) - r1 / r2 * (r2 - s2 * a)) by (unfold r3, s3; ring).
      apply Z.divide_sub_r; [exact H1 | apply Z.divide_mul_r; exact H2].
Qed.

Lemma egcd_coeff_S f r0 r1 s0 s1 :
  egcd_coeff (S f) r0 r1 s0 s1 =
  if Z.eqb r1 0 then s0
  else egcd_coeff f r1 (r0 - Z.div r0 r1 * r1) s1 (s0 - Z.div r0 r1 * s1).
Proof. reflexivity. Qed.

(** [invert] returns the inverse in [0, m). *)
Lemma invert_spec a m x :
  0 < m -> invert a m = Some x -> Z.gcd a m = 1 /\ 0 <= x < m /\ (m | x * a - 1).
Proof.
  intros Hm. unfold invert. destruct (Z.eqb_spec (Z.gcd a m) 1) as [Hg|]; [|discriminate].
  intros H. injection H as <-. rewrite Z.abs_eq by lia.
  split; [exact Hg|]. split; [apply Z.mod_pos_bound; lia|].
  pose proof (Z.log2_nonneg m).
  replace (Z.to_nat (2 * Z.log2 m + 4)) with (S (S (S (2 * Z.to_nat (Z.log2 m) + 1))))%nat by lia.
  rewrite egcd_coeff_S. destruct (Z.eqb_spec m 0) as [|_]; [lia|].
  rewrite (Z.div_small (a mod m) m) by (apply Z.mod_pos_bound; lia).
  replace (a mod m - 0 * m) with (a mod m) by ring. replace (1 - 0 * 0) with 1 by ring.
  replace (S (S (2 * Z.to_nat (Z.log2 m) + 1))) with (2 * S (Z.to_nat (Z.log2 m)) + 1)%nat by lia.
  pose proof (egcd_coeff_spec a m (S (Z.to_nat (Z.log2 m))) (2 * S (Z.to_nat (Z.log2 m)) + 1)
                m (a mod m) 0 1) as E.
  rewrite Z.gcd_comm, Z.gcd_mod, Z.gcd_comm, Hg in E by lia.
  assert (Hd : (m | 1 - egcd_coeff (2 * S (Z.to_nat (Z.log2 m)) + 1) m (a mod m) 0 1 * a)).
  { apply E; [lia | pose proof (Z.mod_pos_bound a m Hm); lia | | |].
    - rewrite Nat2Z.inj_succ, Z2Nat.id by lia. apply Z.log2_spec. exact Hm.
    - exists 1. ring.
    - exists (- (a / m)). rewrite (Z.div_mod a m) at 2 by lia. ring. }
  set (s := egcd_coeff _ _ _ _ _) in *.
  destruct Hd as [c Hc]. exists (- c - (s / m) * a).
  rewrite (Z.mod_eq s m) by lia. lia.
Qed.

Lemma mod_eq_divide a b m : 0 < m -> (a mod m = b mod m <-> (m | a - b)).
Proof.
  intros Hm. split.
  - intros H. exists (a / m - b / m).
    rewrite (Z.div_mod a m) at 1 by lia. rewrite (Z.div_mod b m) at 1 by lia. rewrite H. ring.
  - intros [k Hk]. replace b with (a + (- k) * m) by lia. rewrite Z.mod_add by lia. reflexivity.
Qed.

Lemma rem_cong a m : (m | Z.rem a m - a).
Proof.
  exists (- Z.quot a m). pose proof (Z.quot_rem' a m). lia.
Qed.

Lemma cong_trans m a b c : (m | a - b) -> (m | b - c) -> (m | a - c).
Proof. intros H1 H2. replace (a - c) with ((a - b) + (b - c)) by ring. apply Z.divide_add_r; assumption. Qed.

Lemma double_homogeneous p l :
  (modulus p | x_cord (double (scale l p)) - l ^ 4 * x_cord (double p)) /\
  (modulus p | z_cord (double (scale l p)) - l ^ 4 * z_cord (double p)).
Proof.
  destruct p as [x z a m]. unfold double, scale; cbn [x_cord z_cord a_24 modulus].
  split.
  - eapply cong_trans; [apply rem_cong|].
    replace ((l * x + l * z) ^ 2 * (l * x - l * z) ^ 2) with (l ^ 4 * ((x + z) ^ 2 * (x - z) ^ 2)) by ring.
    replace (l ^ 4 * ((x + z) ^ 2 * (x - z) ^ 2) - l ^ 4 * Z.rem ((x + z) ^ 2 * (x - z) ^ 2) m)
      with (- l ^ 4 * (Z.rem ((x + z) ^ 2 * (x - z) ^ 2) m - (x + z) ^ 2 * (x - z) ^ 2)) by ring.
    apply Z.divide_mul_r, rem_cong.
  - eapply cong_trans; [apply rem_cong|].
    set (E := ((x - z) ^ 2 + a * ((x + z) ^ 2 - (x - z) ^ 2)) * ((x + z) ^ 2 - (x - z) ^ 2)).
    replace (((l * x - l * z) ^ 2 + a * ((l * x + l * z) ^ 2 - (l * x - l * z) ^ 2)) *
             ((l * x + l * z) ^ 2 - (l * x - l * z) ^ 2)) with (l ^ 4 * E) by (unfold E; ring).
    replace (l ^ 4 * E - l ^ 4 * Z.rem E m) with (- l ^ 4 * (Z.rem E m - E)) by ring.
    apply Z.divide_mul_r, rem_cong.
Qed.

Lemma add_homogeneous p q diff l mu nu :
  (modulus p | x_cord (add (scale l p) (scale mu q) (scale nu diff))
               - nu * l ^ 2 * mu ^ 2 * x_cord (add p q diff)) /\
  (modulus p | z_cord (add (scale l p) (scale mu q) (scale nu diff))
               - nu * l ^ 2 * mu ^ 2 * z_cord (add p q diff)).
Proof.
  destruct p as [x z a m], q as [xq zq aq mq], diff as [xd zd ad md].
  unfold add, scale; cbn [x_cord z_cord a_24 modulus].
  split; eapply cong_trans; try apply rem_cong.
  - set (E := zd * ((x - z) * (xq + zq) + (x + z) * (xq - zq)) *
                    ((x - z) * (xq + zq) + (x + z) * (xq - zq))).
    match goal with |- (m | ?L - _) => replace L with (nu * l ^ 2 * mu ^ 2 * E) by (unfold E; ring) end.
    replace (nu * l ^ 2 * mu ^ 2 * E - nu * l ^ 2 * mu ^ 2 * Z.rem E m)
      with (- (nu * l ^ 2 * mu ^ 2) * (Z.rem E m - E)) by ring.
    apply Z.divide_mul_r, rem_cong.
  - set (E := xd * ((x - z) * (xq + zq) - (x + z) * (xq - zq)) *
                    ((x - z) * (xq + zq) - (x + z) * (xq - zq))).
    match goal with |- (m | ?L - _) => replace L with (nu * l ^ 2 * mu ^ 2 * E) by (unfold E; ring) end.
    replace (nu * l ^ 2 * mu ^ 2 * E - nu * l ^ 2 * mu ^ 2 * Z.rem E m)
      with (- (nu * l ^ 2 * mu ^ 2) * (Z.rem E m - E)) by ring.
    apply Z.divide_mul_r, rem_cong.
Qed.



Lemma foldM_total {A B} (P : A -> Prop) (f : A -> B -> Outcome A) (l : list B) (a : A) :
  P a ->
  (forall a' b, In b l -> P a' -> exists a'', f a' b = Ret a'' /\ P a'') ->
  exists r, foldM f l a = Ret r /\ P r.
Proof.
  revert a. induction l as [|b l IH]; intros a Ha Hstep; cbn; [eauto|].
  destruct (Hstep a b (or_introl eq_refl) Ha) as (a' & -> & Ha'). cbn.
  apply IH; [exact Ha'|]. intros; apply Hstep; [right|]; assumption.
Qed.

Lemma vec_set_ok {A} (l : list A) i a :
  (i < length l)%nat -> vec_set l i a = Ret (<[i:=a]> l).
Proof. intros H. unfold vec_set. destruct (decide _); [reflexivity | lia]. Qed.

Lemma vec_set_out {A} (l : list A) i a :
  (length l <= i)%nat -> vec_set l i a = Panic.
Proof. intros H. unfold vec_set. destruct (decide _); [lia | reflexivity]. Qed.

Lemma vec_get_ok {A} (l : list A) i :
  (i < length l)%nat -> exists a, vec_get l i = Ret a.
Proof.
  intros H. unfold vec_get. destruct (lookup_lt_is_Some_2 l i H) as [a ->]. eauto.
Qed.

(** [4 u^3 v] invertible makes [4] invertible. *)
Lemma suyama_total n sigma :
  exists r, suyama n sigma = Ret r /\
    (forall g, r = SuyamaFactor g -> g <> 1 /\ (g | n) /\ 0 <= g) /\
    (forall q, r = SuyamaCurve q -> modulus q = n).
Proof.
  unfold suyama. cbv zeta.
  set (u := Z.rem (sigma * sigma - 5) n). set (v := Z.rem (4 * sigma) n).
  set (u3 := Z.rem (u ^ 3) n).
  destruct (invert (4 * u3 * v) n) as [ci|] eqn:E.
  - assert (Hg : Z.gcd 4 n = 1).
    { unfold invert in E. destruct (Z.eqb_spec (Z.gcd (4 * u3 * v) n) 1) as [G|]; [|discriminate].
      assert (D : (Z.gcd 4 n | 1)).
      { rewrite <- G. apply Z.gcd_greatest.
        - apply Z.divide_mul_l, Z.divide_mul_l, Z.gcd_divide_l.
        - apply Z.gcd_divide_r. }
      apply Z.divide_1_r in D. pose proof (Z.gcd_nonneg 4 n). lia. }
    unfold invert at 1. rewrite Hg. cbn [Z.eqb Pos.eqb].
    eexists; split; [reflexivity|]. split; [intros g H; discriminate|].
    intros q H. injection H as <-. reflexivity.
  - eexists; split; [reflexivity|]. split; [|intros q H; discriminate].
    intros g H. injection H as <-.
    unfold invert in E. destruct (Z.eqb_spec (Z.gcd (4 * u3 * v) n) 1); [discriminate|].
    split; [assumption|]. split; [apply Z.gcd_divide_r | apply Z.gcd_nonneg].
Qed.

Lemma stage2_table_spec n q d s beta :
  length s = S d -> length beta = S d ->
  ((2 <= d)%nat -> exists s' beta', stage2_table n q d s beta = Ret (s', beta') /\
                    length s' = S d /\ length beta' = S d) /\
  ((d < 2)%nat -> stage2_table n q d s beta = Panic).
Proof.
  intros Hs Hb. split.
  - intros Hd. unfold stage2_table.
    rewrite vec_set_ok by lia. cbn [mbind outcome_bind].
    destruct (vec_get_ok (<[1%nat:=double q]> s) 1) as [s1 ->]; [rewrite length_insert; lia|].
    cbn [mbind outcome_bind]. rewrite vec_set_ok by (rewrite length_insert; lia).
    cbn [mbind outcome_bind].
    set (s2 := <[2%nat:=double s1]> (<[1%nat:=double q]> s)).
    assert (Ls2 : length s2 = S d) by (unfold s2; rewrite !length_insert; exact Hs).
    destruct (vec_get_ok s2 1) as [s1' ->]; [lia|]. cbn [mbind outcome_bind].
    rewrite vec_set_ok by lia. cbn [mbind outcome_bind].
    destruct (vec_get_ok s2 2) as [s2' ->]; [lia|]. cbn [mbind outcome_bind].
    rewrite vec_set_ok by (rewrite length_insert; lia). cbn [mbind outcome_bind].
    set (b2 := <[2%nat:=_]> (<[1%nat:=_]> beta)).
    assert (Lb2 : length b2 = S d) by (unfold b2; rewrite !length_insert; exact Hb).
    match goal with |- context [foldM ?F (seq 3 (d - 2)) (s2, b2)] =>
      destruct (foldM_total (fun '(s, beta) => length s = S d /\ length beta = S d) F
                  (seq 3 (d - 2)) (s2, b2)) as [[s' beta'] [-> [L1 L2]]] end.
    + split; assumption.
    + intros [sa ba] i Hi [La Lb]. apply in_seq in Hi.
      destruct (vec_get_ok sa (i - 1)) as [x1 ->]; [lia|]. cbn [mbind outcome_bind].
      destruct (vec_get_ok sa 1) as [x2 ->]; [lia|]. cbn [mbind outcome_bind].
      destruct (vec_get_ok sa (i - 2)) as [x3 ->]; [lia|]. cbn [mbind outcome_bind].
      rewrite vec_set_ok by lia. cbn [mbind outcome_bind].
      destruct (vec_get_ok (<[i:=add x1 x2 x3]> sa) i) as [x4 ->];
        [rewrite length_insert; lia|]. cbn [mbind outcome_bind].
      rewrite vec_set_ok by lia. cbn [mbind outcome_bind].
      eexists; split; [reflexivity|]. cbv beta iota. rewrite !length_insert. split; assumption.
    + exists s', beta'. auto.
  - intros Hd. unfold stage2_table. destruct d as [|[|d]]; [| |lia].
    + rewrite vec_set_out by lia. reflexivity.
    + rewrite vec_set_ok by lia. cbn [mbind outcome_bind].
      destruct (vec_get_ok (<[1%nat:=double q]> s) 1) as [s1 ->]; [rewrite length_insert; lia|].
      cbn [mbind outcome_bind]. rewrite vec_set_out by (rewrite length_insert; lia). reflexivity.
Qed.

Lemma take_while_le_bound fuel c bound q :
  In q (fst (take_while_le fuel c bound)) -> (q <= bound)%N.
Proof.
  revert c. induction fuel as [|f IH]; intros c H; cbn [take_while_le fst In] in H; [destruct H|].
  destruct (next_prime c) as [p|]; [|cbn in H; destruct H].
  destruct (N.leb_spec p bound) as [Hle|]; [|cbn in H; destruct H].
  destruct (take_while_le f (p + 1)%N bound) as [qs c'] eqn:E. cbn in H.
  destruct H as [<-|H]; [exact Hle|]. apply (IH (p + 1)%N). rewrite E. exact H.
Qed.

Lemma windows_bound fuel rr b2 two_d c rr' qs q :
  In (rr', qs) (windows fuel rr b2 two_d c) -> In q qs -> (q <= rr' + two_d)%N.
Proof.
  revert rr c. induction fuel as [|f IH]; intros rr c H Hq; cbn [windows In] in H; [destruct H|].
  destruct (N.ltb rr b2); [|cbn in H; destruct H].
  destruct (take_while_le _ c (rr + two_d)) as [qs0 c'] eqn:E.
  destruct H as [H|H].
  - injection H as <- <-. apply (take_while_le_bound (S (N.to_nat (rr + two_d + 1 - c))) c).
    rewrite E. exact Hq.
  - eapply IH; eassumption.
Qed.

Lemma stage2_divides n q b1 b2 d s beta g :
  stage2 n q b1 b2 d s beta = Ret g -> (g | n) /\ 0 <= g.
Proof.
  unfold stage2. intros H.
  apply bind_Ret_inv in H as (b & _ & H). apply bind_Ret_inv in H as (bt & _ & H).
  apply bind_Ret_inv in H as ([[g0 t] r] & _ & H). injection H as <-.
  split; [apply Z.gcd_divide_r | apply Z.gcd_nonneg].
Qed.

Lemma stage2_spec n q b1 b2 d s beta :
  (d < length s)%nat -> (d < length beta)%nat ->
  ((b1 = 0 \/ b1 - 1 < 2 * N.of_nat d)%N -> stage2 n q b1 b2 d s beta = Panic) /\
  ((1 <= b1)%N -> (2 * N.of_nat d <= b1 - 1)%N -> exists g, stage2 n q b1 b2 d s beta = Ret g).
Proof.
  intros Hs Hb. unfold stage2. split.
  - intros [H|H].
    + subst b1. reflexivity.
    + destruct (N.ltb_spec b1 1); [reflexivity|]. cbn [mbind outcome_bind].
      destruct (N.ltb_spec (b1 - 1) (2 * N.of_nat d)); [reflexivity | lia].
  - intros H1 H2.
    destruct (N.ltb_spec b1 1); [lia|]. cbn [mbind outcome_bind].
    destruct (N.ltb_spec (b1 - 1) (2 * N.of_nat d)); [lia|]. cbn [mbind outcome_bind].
    destruct (vec_get_ok s d Hs) as [sd Esd].
    match goal with |- context [foldM ?F ?L ?A] =>
      destruct (foldM_total (fun _ : Z * Point * Point => True) F L A) as [[[g t] r] [-> _]];
      [exact I| |cbn [mbind outcome_bind]; eauto] end.
    intros [[g t] r] [rr qs] Hin _.
    match goal with |- context [foldM ?F qs ?A] =>
      destruct (foldM_total (fun _ : Z => True) F qs A) as [g' [-> _]]; [exact I| |] end.
    + intros g1 qq Hq _. rewrite Esd. cbn [mbind outcome_bind].
      pose proof (windows_bound _ _ _ _ _ _ _ _ Hin Hq) as Hle.
      destruct (vec_get_ok beta (N.to_nat ((qq - rr) / 2))) as [bd ->].
      { assert (((qq - rr) / 2 <= N.of_nat d)%N).
        { apply N.Div0.div_le_upper_bound. lia. }
        lia. }
      cbn [mbind outcome_bind]. eauto.
    + cbn [mbind outcome_bind]. rewrite Esd. cbn [mbind outcome_bind]. eauto.
Qed.

Section Curves.
Context {RS : Type} `{!RandGen RS}.

Lemma one_curve_factor n b1 b2 d k s beta rgen g s' beta' r' :
  one_curve n b1 b2 d k s beta rgen = Ret (Some g, s', beta', r') ->
  g <> 1 /\ (g | n) /\ 0 <= g.
Proof.
  unfold one_curve, random_below_checked. destruct (n - 1 <=? 0); [discriminate|].
  cbn [mbind outcome_bind]. destruct (random_below (n - 1) rgen) as [sigma r1]. cbn beta iota.
  destruct (suyama_total n sigma) as (sr & -> & Hf & _). cbn [mbind outcome_bind].
  destruct sr as [g0|q0].
  - intros H. injection H as <- _ _ _. apply Hf. reflexivity.
  - destruct (negb (Z.gcd (z_cord (mont_ladder q0 k)) n =? n) &&
              negb (Z.gcd (z_cord (mont_ladder q0 k)) n =? 1)) eqn:E.
    + intros H. injection H as <- _ _ _. apply andb_true_iff in E as [_ E].
      apply negb_true_iff, Z.eqb_neq in E.
      split; [exact E | split; [apply Z.gcd_divide_r | apply Z.gcd_nonneg]].
    + destruct (Z.gcd (z_cord (mont_ladder q0 k)) n =? n); [discriminate|].
      intros H. apply bind_Ret_inv in H as ([s2 b2'] & _ & H).
      apply bind_Ret_inv in H as (g2 & Hs2 & H).
      destruct (negb (g2 =? n) && negb (g2 =? 1)) eqn:E2; [|discriminate].
      injection H as <- _ _ _. apply andb_true_iff in E2 as [_ E2].
      apply negb_true_iff, Z.eqb_neq in E2. split; [exact E2|].
      exact (stage2_divides _ _ _ _ _ _ _ _ Hs2).
Qed.

Lemma curve_loop_factor fuel n b1 b2 mc d k curve s beta rgen g r' :
  curve_loop fuel n b1 b2 mc d k curve s beta rgen = Ret (Ok g, r') ->
  g <> 1 /\ (g | n) /\ 0 <= g.
Proof.
  revert curve s beta rgen. induction fuel as [|f IH]; intros curve s beta rgen H;
    cbn [curve_loop] in H; [discriminate|].
  destruct (N.leb curve mc); [|discriminate].
  apply bind_Ret_inv in H as ([[[res s2] b2'] r2] & Hone & H).
  destruct res as [g0|].
  - injection H as <- _. exact (one_curve_factor _ _ _ _ _ _ _ _ _ _ _ _ Hone).
  - eapply IH. exact H.
Qed.

Lemma ecm_one_factor_factor n b1 b2 mc rgen g r' :
  ecm_one_factor n b1 b2 mc rgen = Ret (Ok g, r') -> g <> 1 /\ (g | n) /\ 0 <= g.
Proof.
  unfold ecm_one_factor.
  destruct (negb (N.eqb (N.modulo b1 2) 0) || negb (N.eqb (N.modulo b2 2) 0)); [discriminate|].
  destruct (negb (IsPrime_eqb (is_probably_prime n 1000) No)); [discriminate|].
  apply curve_loop_factor.
Qed.

Lemma one_curve_total n b1 b2 d k s beta rgen :
  2 <= n -> (2 <= d)%nat -> (2 * N.of_nat d <= b1 - 1)%N -> (1 <= b1)%N ->
  length s = S d -> length beta = S d ->
  exists res s' beta' r', one_curve n b1 b2 d k s beta rgen = Ret (res, s', beta', r') /\
    length s' = S d /\ length beta' = S d.
Proof.
  intros Hn Hd Hb Hb1 Ls Lb.
  unfold one_curve, random_below_checked. destruct (Z.leb_spec (n - 1) 0); [lia|].
  cbn [mbind outcome_bind]. destruct (random_below (n - 1) rgen) as [sigma r1]. cbn beta iota.
  destruct (suyama_total n sigma) as (sr & -> & _ & _). cbn [mbind outcome_bind].
  destruct sr as [g0|q0]; [eauto 10|].
  destruct (negb (Z.gcd (z_cord (mont_ladder q0 k)) n =? n) &&
            negb (Z.gcd (z_cord (mont_ladder q0 k)) n =? 1)); [eauto 10|].
  destruct (Z.gcd (z_cord (mont_ladder q0 k)) n =? n); [eauto 10|].
  destruct (proj1 (stage2_table_spec n (mont_ladder q0 k) d s beta Ls Lb) Hd)
    as (s2 & b2' & -> & L1 & L2).
  cbn [mbind outcome_bind].
  destruct (proj2 (stage2_spec n (mont_ladder q0 k) b1 b2 d s2 b2' ltac:(lia) ltac:(lia)) Hb1 Hb)
    as [g2 ->].
  cbn [mbind outcome_bind].
  destruct (negb (g2 =? n) && negb (g2 =? 1)); eauto 10.
Qed.

Lemma curve_loop_total fuel n b1 b2 mc d k curve s beta rgen :
  2 <= n -> (2 <= d)%nat -> (2 * N.of_nat d <= b1 - 1)%N -> (1 <= b1)%N ->
  length s = S d -> length beta = S d ->
  exists res r', curve_loop fuel n b1 b2 mc d k curve s beta rgen = Ret (res, r') /\
    (res = Err ECMFailed \/ exists g, res = Ok g).
Proof.
  intros Hn Hd Hb Hb1. revert curve s beta rgen.
  induction fuel as [|f IH]; intros curve s beta rgen Ls Lb; cbn [curve_loop]; [eauto 10|].
  destruct (N.leb curve mc); [|eauto 10].
  destruct (one_curve_total n b1 b2 d k s beta rgen Hn Hd Hb Hb1 Ls Lb)
    as (res & s' & beta' & r' & -> & L1 & L2).
  cbn [mbind outcome_bind]. destruct res as [g|]; [eauto 10|]. apply IH; assumption.
Qed.

Lemma ecm_one_factor_total n b1 b2 mc rgen :
  2 <= n -> (4 <= b2)%N -> (2 * N.sqrt b2 < b1)%N ->
  exists res r', ecm_one_factor n b1 b2 mc rgen = Ret (res, r') /\
    (res = Err BoundsNotEven \/ res = Err NumberIsPrime \/ res = Err ECMFailed \/
     exists g, res = Ok g).
Proof.
  intros Hn Hb2 Hb1. unfold ecm_one_factor.
  destruct (negb (N.eqb (N.modulo b1 2) 0) || negb (N.eqb (N.modulo b2 2) 0)); [eauto 10|].
  destruct (negb (IsPrime_eqb (is_probably_prime n 1000) No)); [eauto 10|].
  assert (Hs : (2 <= N.sqrt b2)%N).
  { change 2%N with (N.sqrt 4). apply N.sqrt_le_mono. exact Hb2. }
  edestruct (curve_loop_total (S (S (N.to_nat mc))) n b1 b2 mc (N.to_nat (N.sqrt b2)))
    as (res & r' & -> & Hres); [exact Hn | lia | lia | lia | apply repeat_length | apply repeat_length |].
  destruct Hres as [->|[g ->]]; eauto 10.
Qed.

End Curves.

Lemma is_divisible_true n p : p <> 0 -> is_divisible n p = true <-> (p | n).
Proof.
  intros Hp. unfold is_divisible. apply Z.eqb_neq in Hp as Hp'. rewrite Hp', Z.eqb_eq.
  split; [apply Z.rem_divide; exact Hp | intros H; apply Z.rem_divide; assumption].
Qed.

Lemma incr_keys_ok n0 p m : 2 <= p -> (p | n0) -> keys_ok n0 m -> keys_ok n0 (incr p m).
Proof.
  intros H2 Hd Hm k e. unfold incr. rewrite lookup_insert_Some.
  intros [[<- <-]|[_ H]]; [split; [exact H2|split; [exact Hd | lia]] | exact (Hm k e H)].
Qed.

Lemma divide_out_spec fuel n p m n' m' n0 :
  2 <= p -> 1 <= n -> (n | n0) ->
  divide_out fuel n p m = Ret (n', m') ->
  1 <= n' <= n /\ (n' | n) /\ ~ (p | n') /\ (keys_ok n0 m -> keys_ok n0 m') /\
  ((p | n) -> n' < n).
Proof.
  revert n m. induction fuel as [|f IH]; intros n m Hp Hn Hn0 H;
    destruct (is_divisible n p) eqn:Ed.
  - cbn [divide_out] in H. rewrite Ed in H. discriminate.
  - rewrite divide_out_stop in H by exact Ed. injection H as <- <-.
    assert (Hnd : ~ (p | n)) by (intros D; apply (is_divisible_true n p) in D; [congruence | lia]).
    split; [lia|]. split; [apply Z.divide_refl|]. split; [exact Hnd|]. split; [exact id|].
    intros D. contradiction.
  - rewrite divide_out_step in H by (exact Ed || lia).
    apply is_divisible_true in Ed as [c Hc]; [|lia].
    rewrite Hc, Z.quot_mul in H by lia.
    assert (Hc1 : 1 <= c) by nia. assert (Hcn : c < n) by nia.
    assert (Hcd : (c | n)) by (exists p; lia).
    destruct (IH c (incr p m) Hp Hc1 (Z.divide_trans _ _ _ Hcd Hn0) H)
      as (H1 & H2 & H3 & H4 & _).
    split; [lia|]. split; [exact (Z.divide_trans _ _ _ H2 Hcd)|].
    split; [exact H3|]. split; [|intros _; lia].
    intros Hm. apply H4, incr_keys_ok; [exact Hp | | exact Hm].
    exact (Z.divide_trans _ _ _ (ex_intro _ c Hc) Hn0).
  - rewrite divide_out_stop in H by exact Ed. injection H as <- <-.
    assert (Hnd : ~ (p | n)) by (intros D; apply (is_divisible_true n p) in D; [congruence | lia]).
    split; [lia|]. split; [apply Z.divide_refl|]. split; [exact Hnd|]. split; [exact id|].
    intros D. contradiction.
Qed.

Lemma divide_out_total fuel n p m :
  2 <= p -> 1 <= n -> (Z.to_nat n <= fuel)%nat ->
  exists n' m', divide_out fuel n p m = Ret (n', m').
Proof.
  revert n m. induction fuel as [|f IH]; intros n m Hp Hn Hf; [lia|].
  destruct (is_divisible n p) eqn:Ed; [|rewrite divide_out_stop by exact Ed; eauto].
  rewrite divide_out_step by (exact Ed || lia).
  apply is_divisible_true in Ed as [c Hc]; [|lia].
  rewrite Hc, Z.quot_mul by lia. apply IH; [exact Hp | nia | nia].
Qed.

Lemma trial_division_spec primes fuel n m n' m' :
  Forall (fun p => (2 <= p)%N) primes -> 1 <= n -> keys_ok n m ->
  trial_division primes fuel n m = Ret (n', m') ->
  1 <= n' <= n /\ (n' | n) /\ keys_ok n m' /\ (forall p, In p primes -> ~ (Z.of_N p | n')).
Proof.
  unfold trial_division. intros Hall Hn Hm.
  enough (G : forall n1 m1, 1 <= n1 <= n -> (n1 | n) -> keys_ok n m1 ->
            foldM (fun '(n, factors) p =>
                     if is_divisible n (Z.of_N p) then divide_out fuel n (Z.of_N p) factors
                     else Ret (n, factors)) primes (n1, m1) = Ret (n', m') ->
            1 <= n' <= n1 /\ (n' | n1) /\ keys_ok n m' /\
            (forall p, In p primes -> ~ (Z.of_N p | n'))).
  { intros H. destruct (G n m ltac:(lia) (Z.divide_refl n) Hm H) as (A & B & C & D).
    split; [exact A|]. split; [exact B|]. split; assumption. }
  induction primes as [|p l IH]; intros n1 m1 Hn1 Hd1 Hm1 H; cbn [foldM] in H.
  - injection H as <- <-. split; [lia|]. split; [apply Z.divide_refl|]. split; [exact Hm1|].
    intros p [].
  - inversion Hall as [|? ? Hp Hl]; subst.
    apply bind_Ret_inv in H as ([n2 m2] & Hs & H). cbv beta iota in Hs.
    assert (S : 1 <= n2 <= n1 /\ (n2 | n1) /\ keys_ok n m2 /\ ~ (Z.of_N p | n2)).
    { destruct (is_divisible n1 (Z.of_N p)) eqn:Ed.
      - destruct (divide_out_spec fuel n1 (Z.of_N p) m1 n2 m2 n ltac:(lia) ltac:(lia) Hd1 Hs)
          as (A & B & C & D & _). auto.
      - injection Hs as <- <-. split; [lia|]. split; [apply Z.divide_refl|]. split; [exact Hm1|].
        intros D. apply (is_divisible_true n1 (Z.of_N p)) in D; [congruence | lia]. }
    destruct S as (A & B & C & D).
    destruct (IH Hl n2 m2 ltac:(lia) (Z.divide_trans _ _ _ B Hd1) C H) as (A' & B' & C' & D').
    split; [lia|]. split; [exact (Z.divide_trans _ _ _ B' B)|]. split; [exact C'|].
    intros q [<-|Hq]; [|exact (D' q Hq)].
    intros Hq. apply D. exact (Z.divide_trans _ _ _ Hq B').
Qed.

Lemma trial_division_total primes fuel n m :
  Forall (fun p => (2 <= p)%N) primes -> 1 <= n -> (Z.to_nat n <= fuel)%nat ->
  exists n' m', trial_division primes fuel n m = Ret (n', m') /\ 1 <= n' <= n.
Proof.
  intros Hall Hn Hf. unfold trial_division.
  match goal with |- context [foldM ?F primes ?A] =>
    destruct (foldM_total (fun '(n1, _) => 1 <= n1 <= n) F primes A) as [[n' m'] [-> Hr]] end;
    [lia| |eauto].
  intros [n1 m1] p Hp Hn1. rewrite List.Forall_forall in Hall. specialize (Hall p Hp).
  destruct (is_divisible n1 (Z.of_N p)).
  - destruct (divide_out_total fuel n1 (Z.of_N p) m1 ltac:(lia) ltac:(lia) ltac:(lia))
      as (n2 & m2 & E). rewrite E. eexists; split; [reflexivity|].
    destruct (divide_out_spec fuel n1 (Z.of_N p) m1 n2 m2 n1 ltac:(lia) ltac:(lia) (Z.divide_refl _) E); lia.
  - eexists; split; [reflexivity | exact Hn1].
Qed.

Section Loop.
Context {RS : Type} `{!RandGen RS}.

Lemma ecm_one_factor_step n b1 b2 mc rs res rs' :
  2 <= n -> ecm_one_factor n b1 b2 mc rs = Ret (res, rs') ->
  2 <= unwrap_or res n /\ (unwrap_or res n | n).
Proof.
  intros Hn H. destruct res as [g|e]; cbn [unwrap_or].
  - destruct (ecm_one_factor_factor _ _ _ _ _ _ _ H) as (H1 & H2 & H3).
    assert (g <> 0) by (intros ->; apply Z.divide_0_l in H2; lia). split; [lia | exact H2].
  - split; [lia | apply Z.divide_refl].
Qed.

Lemma ecm_loop_total fuel b1 b2 mc n m rs :
  1 <= n -> (Z.to_nat n <= fuel)%nat -> (4 <= b2)%N -> (2 * N.sqrt b2 < b1)%N ->
  exists m', ecm_loop fuel b1 b2 mc n m rs = Ret m'.
Proof.
  revert n m rs. induction fuel as [|f IH]; intros n m rs Hn Hf Hb2 Hb1; [lia|].
  rewrite ecm_loop_S. destruct (Z.eqb_spec n 1) as [->|Hn1]; [eauto|].
  destruct (ecm_one_factor_total n b1 b2 mc rs ltac:(lia) Hb2 Hb1) as (res & rs' & E & _).
  rewrite E. cbn [mbind outcome_bind].
  destruct (ecm_one_factor_step n b1 b2 mc rs res rs' ltac:(lia) E) as [Hg Hgd].
  destruct (divide_out_total (S f) n (unwrap_or res n) m Hg ltac:(lia) Hf) as (n' & m' & D).
  rewrite D. cbn [mbind outcome_bind].
  destruct (divide_out_spec (S f) n (unwrap_or res n) m n' m' n Hg ltac:(lia) (Z.divide_refl n) D)
    as (A & _ & _ & _ & L). specialize (L Hgd).
  apply IH; [lia | lia | exact Hb2 | exact Hb1].
Qed.

Lemma ecm_loop_keys fuel b1 b2 mc n m rs m' n0 :
  1 <= n -> (n | n0) -> keys_ok n0 m ->
  ecm_loop fuel b1 b2 mc n m rs = Ret m' -> keys_ok n0 m'.
Proof.
  revert n m rs. induction fuel as [|f IH]; intros n m rs Hn Hn0 Hm H;
    [cbn in H | rewrite ecm_loop_S in H];
    destruct (Z.eqb_spec n 1) as [->|Hn1]; try (injection H as <-; exact Hm); try discriminate.
  apply bind_Ret_inv in H as ([res rs'] & E & H).
  apply bind_Ret_inv in H as ([n2 m2] & D & H).
  destruct (ecm_one_factor_step n b1 b2 mc rs res rs' ltac:(lia) E) as [Hg Hgd].
  destruct (divide_out_spec (S f) n (unwrap_or res n) m n2 m2 n0 Hg ltac:(lia) Hn0 D) as (A & B & _ & K & _).
  exact (IH n2 m2 rs' ltac:(lia) (Z.divide_trans _ _ _ B Hn0) (K Hm) H).
Qed.

End Loop.

Section Top.
Context {RS : Type} `{!RandGen RS}.

Lemma ecm_with_params_total n b1 b2 mc seed fuel :
  1 <= n -> (Z.to_nat n <= fuel)%nat -> (4 <= b2)%N -> (2 * N.sqrt b2 < b1)%N ->
  exists m, ecm_with_params n b1 b2 mc seed fuel = Ret (Ok m) /\ factors_product m = n.
Proof.
  intros Hn Hf Hb2 Hb1. unfold ecm_with_params.
  destruct (trial_division_total small_primes fuel n ∅ small_primes_ge_2 Hn Hf)
    as (n' & m' & E & Hn'). rewrite E. cbn [mbind outcome_bind].
  destruct (ecm_loop_total fuel b1 b2 mc n' m' (rand_seed (Z.of_N seed)) ltac:(lia) ltac:(lia) Hb2 Hb1)
    as (m2 & L). rewrite L. cbn [mbind outcome_bind].
  exists m2. split; [reflexivity|].
  apply trial_division_product in E. apply ecm_loop_product in L.
  rewrite factors_product_empty in E. lia.
Qed.

Lemma ecm_with_params_keys n b1 b2 mc seed fuel m :
  1 <= n -> ecm_with_params n b1 b2 mc seed fuel = Ret (Ok m) -> keys_ok n m.
Proof.
  intros Hn H. unfold ecm_with_params in H.
  apply bind_Ret_inv in H as ([n' m1] & Ht & H).
  apply bind_Ret_inv in H as (m2 & Hl & H). injection H as <-.
  assert (K0 : keys_ok n ∅) by (intros k e Hk; rewrite lookup_empty in Hk; discriminate).
  destruct (trial_division_spec small_primes fuel n ∅ n' m1 small_primes_ge_2 Hn K0 Ht)
    as (A & B & C & _).
  exact (ecm_loop_keys fuel b1 b2 mc n' m1 _ m2 n ltac:(lia) B C Hl).
Qed.

End Top.

Lemma optimal_b1_bounds d :
  (2000 <= optimal_b1 d <= 2900000000)%N /\ N.even (optimal_b1 d) = true.
Proof.
  unfold optimal_b1. repeat (destruct (_ && _)); split; (reflexivity || lia).
Qed.

Lemma sqrt_100000 : N.sqrt 100000 = 316%N.
Proof. reflexivity. Qed.

Lemma divide_out_zero fuel p m : p <> 0 -> divide_out fuel 0 p m = Diverge.
Proof.
  intros Hp. assert (Hd : is_divisible 0 p = true).
  { unfold is_divisible. apply Z.eqb_neq in Hp. rewrite Hp. reflexivity. }
  revert m. induction fuel as [|f IH]; intros m.
  - cbn [divide_out]. rewrite Hd. reflexivity.
  - rewrite divide_out_step by assumption. rewrite Z.quot_0_l by assumption. apply IH.
Qed.

Lemma ecm_with_params_zero {RS : Type} `{!RandGen RS} b1 b2 mc seed fuel :
  ecm_with_params 0 b1 b2 mc seed fuel = Diverge.
Proof.
  unfold ecm_with_params, trial_division. rewrite small_primes_cons, foldM_cons.
  generalize (primes_from 99999 3). intros L.
  assert (Hd : is_divisible 0 (Z.of_N 2) = true) by reflexivity.
  cbv beta iota. rewrite Hd, divide_out_zero by lia. reflexivity.
Qed.

Lemma optimal_b1_large d : (66 <= d)%nat -> optimal_b1 d = 2900000000%N.
Proof.
  intros H. unfold optimal_b1.
  rewrite !(proj2 (Nat.leb_gt d _)) by lia. rewrite !andb_false_r. reflexivity.
Qed.

Lemma optimal_b1_mono_step d : (1 <= d)%nat -> (optimal_b1 d <= optimal_b1 (S d))%N.
Proof.
  intros Hd. destruct (Nat.lt_ge_cases d 66) as [H|H].
  - assert (Hc : forallb (fun d => N.leb (optimal_b1 d) (optimal_b1 (S d))) (seq 1 65) = true)
      by reflexivity.
    rewrite forallb_forall in Hc. apply N.leb_le, (Hc d), in_seq. split; [exact Hd | exact H].
  - rewrite !optimal_b1_large by lia. lia.
Qed.

Lemma optimal_b1_mono d1 d2 : (1 <= d1)%nat -> (d1 <= d2)%nat -> (optimal_b1 d1 <= optimal_b1 d2)%N.
Proof.
  intros H1 H. induction H as [|d2 H IH]; [lia|].
  pose proof (optimal_b1_mono_step d2 ltac:(lia)). lia.
Qed.

Lemma ilog_aux_spec fuel b p :
  (2 <= p)%N -> (1 <= b)%N -> (b < 2 ^ N.of_nat fuel)%N ->
  (p ^ ilog_aux fuel b p <= b < p ^ (ilog_aux fuel b p + 1))%N.
Proof.
  revert b. induction fuel as [|f IH]; intros b Hp Hb Hf; [cbn in Hf; lia|].
  cbn [ilog_aux]. destruct (N.ltb_spec b p) as [Hlt|Hge]; [cbn; lia|].
  pose proof (N.div_mod b p ltac:(lia)) as Hdm. pose proof (N.mod_lt b p ltac:(lia)) as Hml.
  assert (Hq : (1 <= b / p)%N).
  { apply N.div_le_lower_bound; lia. }
  assert (Hqf : (b / p < 2 ^ N.of_nat f)%N).
  { rewrite Nat2N.inj_succ, N.pow_succ_r' in Hf.
    apply N.le_lt_trans with (b / 2)%N; [apply N.div_le_compat_l; lia|].
    apply N.Div0.div_lt_upper_bound; lia. }
  destruct (IH (b / p)%N Hp Hq Hqf) as [H1 H2].
  set (e := ilog_aux f (b / p) p) in *.
  rewrite <- N.add_assoc, (N.add_comm 1 e), !N.pow_add_r, !N.pow_1_r.
  rewrite N.pow_add_r, N.pow_1_r in H2.
  generalize dependent (p ^ e)%N. generalize dependent (b / p)%N. generalize dependent (b mod p)%N.
  intros r Hr q Hdm Hq1 Hqf X HX1 HX2. subst b. split; nia.
Qed.

(* ================================================================== *)
(** * Further properties of the code *)

(** X1: two points with the same [a_24] and the same modulus [m > 0],
    non-negative x-coordinates and z-coordinates invertible modulo [m]
    are compared by [eq] without a panic, and [eq] answers [true] exactly
    when [x_p * z_o] and [x_o * z_p] are congruent modulo [m]. *)
Theorem point_eq_cross (p o : Point) :
  0 < modulus p -> modulus o = modulus p -> a_24 o = a_24 p ->
  Z.gcd (z_cord p) (modulus p) = 1 -> Z.gcd (z_cord o) (modulus p) = 1 ->
  0 <= x_cord p -> 0 <= x_cord o ->
  exists b, point_eq p o = Ret b /\
    (b = true <-> (modulus p | x_cord p * z_cord o - x_cord o * z_cord p)).
Proof.
  destruct p as [xp zp a m], o as [xo zo a' m']; cbn [x_cord z_cord a_24 modulus].
  intros Hm -> -> Hgp Hgo Hxp Hxo. unfold point_eq; cbn [x_cord z_cord a_24 modulus].
  rewrite !Z.eqb_refl. cbn [negb orb].
  destruct (invert zp m) as [ip|] eqn:Ep.
  2:{ unfold invert in Ep. rewrite Hgp in Ep. discriminate. }
  destruct (invert zo m) as [io|] eqn:Eo.
  2:{ unfold invert in Eo. rewrite Hgo in Eo. discriminate. }
  apply invert_spec in Ep as (_ & Hip & Dp); [|exact Hm].
  apply invert_spec in Eo as (_ & Hio & Do); [|exact Hm].
  eexists; split; [reflexivity|].
  rewrite Z.eqb_eq, !Z.rem_mod_nonneg by nia. rewrite mod_eq_divide by exact Hm.
  split.
  - intros H.
    replace (xp * zo - xo * zp) with
      ((ip * xp - io * xo) * zp * zo - xp * zo * (ip * zp - 1) + xo * zp * (io * zo - 1)) by ring.
    apply Z.divide_add_r; [apply Z.divide_sub_r|].
    + apply Z.divide_mul_l, Z.divide_mul_l, H.
    + apply Z.divide_mul_r, Dp.
    + apply Z.divide_mul_r, Do.
  - intros H.
    replace (ip * xp - io * xo) with
      (ip * io * (xp * zo - xo * zp) - ip * xp * (io * zo - 1) + io * xo * (ip * zp - 1)) by ring.
    apply Z.divide_add_r; [apply Z.divide_sub_r|].
    + apply Z.divide_mul_r, H.
    + apply Z.divide_mul_r, Do.
    + apply Z.divide_mul_r, Dp.
Qed.

Lemma point_eq_cross_witness :
  (0 < 7 /\ 7 = 7 /\ 0 = 0 /\ Z.gcd 1 7 = 1 /\ Z.gcd 2 7 = 1 /\ 0 <= 2 /\ 0 <= 4) /\
  exists b, point_eq (mkPoint 2 1 0 7) (mkPoint 4 2 0 7) = Ret b /\
    (b = true <-> (7 | 2 * 2 - 4 * 1)).
Proof.
  split; [repeat split; (reflexivity || lia)|].
  apply (point_eq_cross (mkPoint 2 1 0 7) (mkPoint 4 2 0 7)); cbn; (reflexivity || lia).
Defined.

(** X2: [eq] answers [false] when the two points differ in [a_24] or in the
    modulus; otherwise it panics when the z-coordinate of either point is
    not invertible modulo the modulus of the first. *)
Theorem point_eq_edges (p o : Point) :
  (a_24 p <> a_24 o \/ modulus p <> modulus o -> point_eq p o = Ret false) /\
  (a_24 p = a_24 o -> modulus p = modulus o -> Z.gcd (z_cord p) (modulus p) <> 1 ->
     point_eq p o = Panic) /\
  (a_24 p = a_24 o -> modulus p = modulus o -> Z.gcd (z_cord o) (modulus p) <> 1 ->
     point_eq p o = Panic).
Proof.
  unfold point_eq. split; [|split].
  - intros [H|H]; apply Z.eqb_neq in H; rewrite H; [reflexivity|].
    rewrite orb_true_r. reflexivity.
  - intros -> -> H. rewrite !Z.eqb_refl. cbn [negb orb].
    unfold invert at 1. apply Z.eqb_neq in H. rewrite H. reflexivity.
  - intros -> -> H. rewrite !Z.eqb_refl. cbn [negb orb].
    destruct (invert (z_cord p) (modulus o)); [|reflexivity].
    unfold invert. apply Z.eqb_neq in H. rewrite H. reflexivity.
Qed.

(** X3: [double] and [add] respect projective coordinates: multiplying the
    coordinates of the input point of [double] by [l] multiplies both
    output coordinates by [l^4] modulo the modulus, and multiplying the
    coordinates of [self], [q] and [diff] of [add] by [l], [mu] and [nu]
    multiplies both output coordinates by [nu * l^2 * mu^2]. *)
Theorem add_double_homogeneous (p q diff : Point) (l mu nu : Z) :
  ((modulus p | x_cord (double (scale l p)) - l ^ 4 * x_cord (double p)) /\
   (modulus p | z_cord (double (scale l p)) - l ^ 4 * z_cord (double p))) /\
  ((modulus p | x_cord (add (scale l p) (scale mu q) (scale nu diff))
                - nu * l ^ 2 * mu ^ 2 * x_cord (add p q diff)) /\
   (modulus p | z_cord (add (scale l p) (scale mu q) (scale nu diff))
                - nu * l ^ 2 * mu ^ 2 * z_cord (add p q diff))).
Proof. split; [apply double_homogeneous | apply add_homogeneous]. Qed.


(** X5: for a modulus [m > 0], [invert a m] succeeds exactly when
    [gcd(a, m) = 1], and what it returns is the inverse of [a] modulo [m]
    in [0, m). *)
Theorem invert_inverse (a m : Z) :
  0 < m ->
  (invert a m <> None <-> Z.gcd a m = 1) /\
  (forall x, invert a m = Some x -> 0 <= x < m /\ (m | x * a - 1)).
Proof.
  intros Hm. split.
  - split.
    + destruct (invert a m) as [x|] eqn:E; [|congruence].
      intros _. exact (proj1 (invert_spec a m x Hm E)).
    + intros Hg. unfold invert. rewrite Hg. cbn [Z.eqb Pos.eqb]. discriminate.
  - intros x E. exact (proj2 (invert_spec a m x Hm E)).
Qed.

Lemma invert_inverse_witness :
  0 < 7 /\ (invert 3 7 <> None <-> Z.gcd 3 7 = 1) /\
  (forall x, invert 3 7 = Some x -> 0 <= x < 7 /\ (7 | x * 3 - 1)).
Proof. split; [lia|]. apply (invert_inverse 3 7). lia. Defined.

(** X6: Suyama's parametrisation never panics: the inverse of [4] it
    unwraps exists whenever [4 u^3 v] is invertible; an early factor it
    returns is a non-negative divisor of [n] other than [1], and the curve
    it builds has modulus [n]. *)
Theorem suyama_no_panic (n sigma : Z) :
  exists r, suyama n sigma = Ret r /\
    (forall g, r = SuyamaFactor g -> g <> 1 /\ (g | n) /\ 0 <= g) /\
    (forall q, r = SuyamaCurve q -> modulus q = n).
Proof. apply suyama_total. Qed.





(** X9: a factor returned by [ecm_one_factor] as [Ok g] is a non-negative
    divisor of [n] other than [1]. *)
Theorem ecm_one_factor_ok_divisor {RS : Type} `{!RandGen RS}
    (n : Z) (b1 b2 mc : N) (rgen : RS) (g : Z) (r' : RS) :
  ecm_one_factor n b1 b2 mc rgen = Ret (Ok g, r') -> g <> 1 /\ (g | n) /\ 0 <= g.
Proof. apply ecm_one_factor_factor. Qed.

Lemma ecm_one_factor_ok_divisor_witness :
  ecm_one_factor (RS := Lcg) 91 20 16 5 (mkLcg 3) = Ret (Ok 7, mkLcg 1035215989) /\
  (7 <> 1 /\ (7 | 91) /\ 0 <= 7).
Proof.
  split; [vm_compute; reflexivity|].
  apply (ecm_one_factor_ok_divisor (RS := Lcg) 91 20 16 5 (mkLcg 3) 7 (mkLcg 1035215989)).
  vm_compute. reflexivity.
Defined.



(** X11: the inner [while n.is_divisible(&p) { n /= &p; ... }] loop with
    [p >= 2] on [n >= 1] stops after at most [n] divisions; it leaves a
    residual [n'] with [1 <= n' <= n], [n'] dividing [n] and [p] not
    dividing [n'] (smaller than [n] when [p] divides [n]), and [n] times the
    product of the mapping is unchanged. *)
Theorem divide_out_result (fuel : nat) (n p : Z) (m : gmap Z nat) :
  2 <= p -> 1 <= n -> (Z.to_nat n <= fuel)%nat ->
  exists n' m', divide_out fuel n p m = Ret (n', m') /\
    1 <= n' <= n /\ (n' | n) /\ ~ (p | n') /\ ((p | n) -> n' < n) /\
    n * factors_product m = n' * factors_product m'.
Proof.
  intros Hp Hn Hf. destruct (divide_out_total fuel n p m Hp Hn Hf) as (n' & m' & E).
  destruct (divide_out_spec fuel n p m n' m' n Hp Hn (Z.divide_refl n) E)
    as (A & B & C & _ & D).
  exists n', m'. split; [exact E|]. split; [exact A|]. split; [exact B|]. split; [exact C|].
  split; [exact D | exact (divide_out_product _ _ _ _ _ _ E)].
Qed.

Lemma divide_out_result_witness :
  2 <= 2 /\ 1 <= 12 /\ (Z.to_nat 12 <= 12)%nat /\
  exists n' m', divide_out 12 12 2 ∅ = Ret (n', m') /\
    1 <= n' <= 12 /\ (n' | 12) /\ ~ (2 | n') /\ ((2 | 12) -> n' < 12) /\
    12 * factors_product ∅ = n' * factors_product m'.
Proof.
  split; [lia|]. split; [lia|]. split; [cbn; lia|].
  apply (divide_out_result 12 12 2 ∅); [lia | lia | cbn; lia].
Defined.

(** X12: for [n >= 1] the trial division by the first 100000 primes
    terminates and leaves a residual [n'] in [1..n] dividing [n] that no
    trial-division prime divides, with [n = n' * product of the mapping];
    every key of the mapping is at least [2], divides [n], and has
    multiplicity at least [1]. *)
Theorem trial_division_residual (fuel : nat) (n : Z) :
  1 <= n -> (Z.to_nat n <= fuel)%nat ->
  exists n' m', trial_division small_primes fuel n ∅ = Ret (n', m') /\
    1 <= n' <= n /\ (n' | n) /\ n = n' * factors_product m' /\
    (forall k e, m' !! k = Some e -> 2 <= k /\ (k | n) /\ (1 <= e)%nat) /\
    (forall p, In p small_primes -> ~ (Z.of_N p | n')).
Proof.
  intros Hn Hf.
  destruct (trial_division_total small_primes fuel n ∅ small_primes_ge_2 Hn Hf)
    as (n' & m' & E & _).
  assert (K0 : keys_ok n ∅) by (intros k e Hk; rewrite lookup_empty in Hk; discriminate).
  destruct (trial_division_spec small_primes fuel n ∅ n' m' small_primes_ge_2 Hn K0 E)
    as (A & B & C & D).
  exists n', m'. split; [exact E|]. split; [exact A|]. split; [exact B|].
  split; [|split; [exact C | exact D]].
  apply trial_division_product in E. rewrite factors_product_empty in E. lia.
Qed.

Lemma trial_division_residual_witness :
  1 <= 12 /\ (Z.to_nat 12 <= 12)%nat /\
  exists n' m', trial_division small_primes 12 12 ∅ = Ret (n', m') /\
    1 <= n' <= 12 /\ (n' | 12) /\ 12 = n' * factors_product m' /\
    (forall k e, m' !! k = Some e -> 2 <= k /\ (k | 12) /\ (1 <= e)%nat) /\
    (forall p, In p small_primes -> ~ (Z.of_N p | n')).
Proof.
  split; [lia|]. split; [cbn; lia|].
  apply (trial_division_residual 12 12); [lia | cbn; lia].
Defined.



(** X14: for [n >= 1], every key of the mapping returned by
    [ecm_with_params] is at least [2] and divides [n], and its multiplicity
    is at least [1]. *)
Theorem ecm_with_params_keys_divide {RS : Type} `{!RandGen RS}
    (n : Z) (b1 b2 mc seed : N) (fuel : nat) (m : gmap Z nat) :
  1 <= n -> ecm_with_params n b1 b2 mc seed fuel = Ret (Ok m) ->
  forall k e, m !! k = Some e -> 2 <= k /\ (k | n) /\ (1 <= e)%nat.
Proof. apply ecm_with_params_keys. Qed.

Lemma ecm_with_params_keys_divide_witness :
  1 <= 2 /\ ecm_with_params (RS := Lcg) 2 2000 100000 200 1234 1 = Ret (Ok {[2 := 1%nat]}) /\
  (forall k e, ({[2 := 1%nat]} : gmap Z nat) !! k = Some e -> 2 <= k /\ (k | 2) /\ (1 <= e)%nat).
Proof.
  split; [lia|]. split; [apply ecm_with_params_two; lia|].
  apply (ecm_with_params_keys_divide (RS := Lcg) 2 2000 100000 200 1234 1); [lia|].
  apply ecm_with_params_two. lia.
Defined.

(** X15: for every [n >= 1], [ecm n] terminates (with fuel [n] for its
    loops) without a panic and returns [Ok] of a mapping whose product is
    [n]: the parameters it picks ([B1 >= 2000], [B2 = 100000]) always pass
    the bound checks. *)
Theorem ecm_terminates {RS : Type} `{!RandGen RS} (n : Z) (fuel : nat) :
  1 <= n -> (Z.to_nat n <= fuel)%nat ->
  exists m, ecm n fuel = Ret (Ok m) /\ factors_product m = n.
Proof.
  intros Hn Hf. unfold ecm. apply ecm_with_params_total; [exact Hn | exact Hf | lia |].
  rewrite sqrt_100000. destruct (optimal_b1_bounds (dec_len n)) as [H _]. lia.
Qed.

Lemma ecm_terminates_witness :
  1 <= 91 /\ (Z.to_nat 91 <= 91)%nat /\
  exists m, ecm (RS := Lcg) 91 91 = Ret (Ok m) /\ factors_product m = 91.
Proof.
  split; [lia|]. split; [cbn; lia|].
  apply (ecm_terminates (RS := Lcg) 91 91); [lia | cbn; lia].
Defined.

(** X16: on [n = 0], [ecm_with_params] and [ecm] never return: the loop
    dividing out the prime [2] keeps dividing [0]. *)
Theorem ecm_zero_diverges {RS : Type} `{!RandGen RS} (b1 b2 mc seed : N) (fuel : nat) :
  ecm_with_params 0 b1 b2 mc seed fuel = Diverge /\ ecm 0 fuel = Diverge.
Proof. split; [|unfold ecm]; apply ecm_with_params_zero. Qed.

(** X17: [optimal_b1] always returns an even bound between [2000] and
    [2900000000], and it is non-decreasing in the number of digits from
    [1] on. *)
Theorem optimal_b1_range_monotone :
  (forall d, (2000 <= optimal_b1 d <= 2900000000)%N /\ N.even (optimal_b1 d) = true) /\
  (forall d1 d2, (1 <= d1)%nat -> (d1 <= d2)%nat -> (optimal_b1 d1 <= optimal_b1 d2)%N).
Proof. split; [exact optimal_b1_bounds | exact optimal_b1_mono]. Qed.

(** X18: for a base [p >= 2] and [b >= 1], [ilog b p] is the exponent [e]
    with [p^e <= b < p^(e+1)]. *)
Theorem ilog_bounds (b p : N) :
  (2 <= p)%N -> (1 <= b)%N -> (p ^ ilog b p <= b < p ^ (ilog b p + 1))%N.
Proof.
  intros Hp Hb. apply ilog_aux_spec; [exact Hp | exact Hb|].
  rewrite Nat2N.inj_succ, N2Nat.id. destruct (N.log2_spec b ltac:(lia)) as [_ H].
  exact H.
Qed.

Lemma ilog_bounds_witness :
  (2 <= 2)%N /\ (1 <= 10)%N /\ (2 ^ ilog 10 2 <= 10 < 2 ^ (ilog 10 2 + 1))%N.
Proof.
  split; [lia|]. split; [lia|].
  apply (ilog_bounds 10 2); lia.
Defined.
